(** * Retail analysis: cohort retention, aggregators, loader and relabelling

    A shallow embedding of [retail_analysis.py] and [update_products.py].

    The dataframe operations the two scripts call (unique, dict/zip, map,
    groupby with sum / size / nunique / transform('min'), nlargest and
    nsmallest, pivot_table, divide, round) are written out as list functions
    with the behaviour pandas documents for the arguments the scripts pass.
    Floating-point numbers are represented by exact rationals [Q]; a missing
    value (NaN / NaT) is [None]. *)

From Stdlib Require Import QArith Qround Lqa.
From stdpp Require Import list strings numbers pretty sorting.

Local Open Scope Z_scope.

(** ** Dataframe primitives *)

Section Primitives.
Context {A : Type} `{!EqDecision A}.

(** [Series.unique()]: one scan with a table of the values seen so far;
    the distinct values come out in order of first appearance. *)
Fixpoint unique_from (seen : list A) (l : list A) : list A :=
  match l with
  | [] => []
  | x :: l' =>
      if decide (x ∈ seen) then unique_from seen l'
      else x :: unique_from (x :: seen) l'
  end.

Definition unique (l : list A) : list A := unique_from [] l.

(** [Series.nunique()]: number of distinct non-missing values. *)
Definition nunique (l : list (option A)) : nat :=
  length (unique (omap id l)).
End Primitives.

(** A Python [dict]: association list in insertion order; setting an
    existing key overwrites its value in place. *)
Section Dict.
Context {K V : Type} `{!EqDecision K}.

Definition dict : Type := list (K * V).

Fixpoint dict_set (d : dict) (k : K) (v : V) : dict :=
  match d with
  | [] => [(k, v)]
  | (k', v') :: d' =>
      if decide (k' = k) then (k', v) :: d' else (k', v') :: dict_set d' k v
  end.

Fixpoint dict_get (d : dict) (k : K) : option V :=
  match d with
  | [] => None
  | (k', v') :: d' => if decide (k' = k) then Some v' else dict_get d' k
  end.

(** [dict(pairs)] *)
Definition dict_of (l : list (K * V)) : dict :=
  foldl (λ d p, dict_set d p.1 p.2) [] l.

Definition dict_keys (d : dict) : list K := d.*1.
Definition dict_values (d : dict) : list V := d.*2.

(** [Series.map(d)]: a value that is missing or not a key gives NaN. *)
Definition series_map (d : dict) (l : list (option K)) : list (option V) :=
  map (λ o, o ≫= dict_get d) l.
End Dict.
Global Arguments dict : clear implicits.

(** Stable sort by a comparison [leb] (ties keep their original order). *)
Section Sort.
Context {A : Type} (leb : A → A → bool).

Fixpoint sort_insert (x : A) (l : list A) : list A :=
  match l with
  | [] => [x]
  | y :: l' => if leb x y then x :: y :: l' else y :: sort_insert x l'
  end.

Definition stable_sort (l : list A) : list A := foldr sort_insert [] l.
End Sort.

(** NaN-skipping reductions. *)
Definition sum_skipna (l : list (option Q)) : Q :=
  foldr Qplus 0%Q (omap id l).

Definition min_skipna (l : list (option nat)) : option nat :=
  match omap id l with
  | [] => None
  | x :: xs => Some (foldr Nat.min x xs)
  end.

(** Element-wise arithmetic with NaN propagation. *)
Definition nan_mul (a b : option Q) : option Q :=
  match a, b with Some x, Some y => Some (x * y)%Q | _, _ => None end.

Definition nan_div (a b : option Q) : option Q :=
  match a, b with Some x, Some y => Some (x / y)%Q | _, _ => None end.

Definition nan_sub (a b : option nat) : option Z :=
  match a, b with
  | Some x, Some y => Some (Z.of_nat x - Z.of_nat y)
  | _, _ => None
  end.

(** Round half to even, as [numpy.rint]. *)
Definition rint (q : Q) : Z :=
  let n := Qfloor q in
  match (q - inject_Z n ?= 1 # 2)%Q with
  | Lt => n
  | Gt => n + 1
  | Eq => if Z.even n then n else n + 1
  end.

(** [.round(2)] *)
Definition round2 (q : Q) : Q := (inject_Z (rint (q * 100)) / 100)%Q.

(** ** Timestamps *)

Record datetime := mk_datetime {
  year : Z; month : Z; day : Z; hour : Z; minute : Z
}.

Global Instance datetime_eq_dec : EqDecision datetime.
Proof. solve_decision. Defined.

(** [dt.quarter] *)
Definition quarter (d : datetime) : Z := (month d - 1) `div` 3 + 1.

(** ['Q' + quarter.astype(str) + '/' + year.astype(str)] *)
Definition quarter_key (d : datetime) : string :=
  "Q" +:+ pretty (quarter d) +:+ "/" +:+ pretty (year d).

(** [dt.date] and [dt.to_period('M')] *)
Definition date_of (d : datetime) : Z * Z * Z := (year d, month d, day d).
Definition period_M (d : datetime) : Z * Z := (year d, month d).

(** ** Tables *)

(** A line of the CSV file as [read_csv] hands it over. The fields the
    loader coerces are kept as their text; an empty field is [None]. The
    customer id column is numeric, with NaN for an empty field. *)
Record raw_row := mk_raw_row {
  Invoice : option string;
  StockCode : option string;
  Description : option string;
  Quantity : option string;
  InvoiceDate_text : option string;
  Price : option string;
  Customer_ID : option Z;
  Country : option string
}.

(** A record of the loaded table, under the column names the loader
    gives them. *)
Record row := mk_row {
  Packet_ID : option string;
  Sensor_ID : option string;
  Sensor_Type : option string;
  Signal_Strength : option Q;
  InvoiceDate : datetime;
  SNR : option Q;
  Receiver_ID : option Z;
  Transmission_Zone : option string;
  Effective_Throughput : option Q
}.

(** The dataframe object that [main] passes to every analysis function.
    [rows] holds the columns the loader produced; the other fields are the
    columns that analysis functions assign with [df['...'] = ...], absent
    ([None]) until first assigned. *)
Record DataFrame := mk_df {
  rows : list row;
  InvoiceQuarter : option (list string);
  InvoiceQuarterID : option (list (option nat));
  CohortQuarterID : option (list (option nat));
  CohortQuarter : option (list (option string));
  CohortIndex : option (list (option Z));
  InvoiceMonth : option (list (Z * Z))
}.

Definition set_InvoiceQuarter (df : DataFrame) (c : list string) : DataFrame :=
  mk_df (rows df) (Some c) (InvoiceQuarterID df) (CohortQuarterID df)
        (CohortQuarter df) (CohortIndex df) (InvoiceMonth df).
Definition set_InvoiceQuarterID (df : DataFrame) (c : list (option nat)) : DataFrame :=
  mk_df (rows df) (InvoiceQuarter df) (Some c) (CohortQuarterID df)
        (CohortQuarter df) (CohortIndex df) (InvoiceMonth df).
Definition set_CohortQuarterID (df : DataFrame) (c : list (option nat)) : DataFrame :=
  mk_df (rows df) (InvoiceQuarter df) (InvoiceQuarterID df) (Some c)
        (CohortQuarter df) (CohortIndex df) (InvoiceMonth df).
Definition set_CohortQuarter (df : DataFrame) (c : list (option string)) : DataFrame :=
  mk_df (rows df) (InvoiceQuarter df) (InvoiceQuarterID df) (CohortQuarterID df)
        (Some c) (CohortIndex df) (InvoiceMonth df).
Definition set_CohortIndex (df : DataFrame) (c : list (option Z)) : DataFrame :=
  mk_df (rows df) (InvoiceQuarter df) (InvoiceQuarterID df) (CohortQuarterID df)
        (CohortQuarter df) (Some c) (InvoiceMonth df).
Definition set_InvoiceMonth (df : DataFrame) (c : list (Z * Z)) : DataFrame :=
  mk_df (rows df) (InvoiceQuarter df) (InvoiceQuarterID df) (CohortQuarterID df)
        (CohortQuarter df) (CohortIndex df) (Some c).

(** ** Loader *)

Section Loader.
(** The two parsers of pandas, one field at a time: [to_numeric] and
    [to_datetime(format='%m/%d/%y %H:%M')]. With [errors='coerce'] a text
    they reject gives a missing value. *)
Variable parse_numeric : string → option Q.
Variable parse_datetime : string → option datetime.

Definition to_numeric (field : option string) : option Q :=
  field ≫= parse_numeric.
Definition to_datetime (field : option string) : option datetime :=
  field ≫= parse_datetime.

(** One record through the loader: rename, coerce, derive the amount,
    and [dropna(subset=['InvoiceDate'])]. *)
Definition load_row (r : raw_row) : option row :=
  let snr := to_numeric (Price r) in
  let signal_strength := to_numeric (Quantity r) in
  let effective_throughput := nan_mul signal_strength snr in
  match to_datetime (InvoiceDate_text r) with
  | None => None
  | Some d =>
      Some (mk_row (Invoice r) (StockCode r) (Description r) signal_strength
              d snr (Customer_ID r) (Country r) effective_throughput)
  end.

Definition load_and_preprocess_data (csv : list raw_row) : DataFrame :=
  mk_df (omap load_row csv) None None None None None None.
End Loader.

(** ** Grouping *)

Section GroupBy.
Context {K : Type} `{!EqDecision K} (leb : K → K → bool).

(** The groups of [groupby(key)]: the distinct non-missing keys, sorted. *)
Definition group_keys (keys : list (option K)) : list K :=
  stable_sort leb (unique (omap id keys)).

(** The values of the records whose key is [k], in row order. *)
Definition group_of {B} (k : K) (keys : list (option K)) (vals : list B) : list B :=
  (filter (λ p, p.1 = Some k) (zip keys vals)).*2.

(** [groupby(key)[col].agg(f)] *)
Definition groupby_agg {B C} (f : list B → C)
    (keys : list (option K)) (vals : list B) : list (K * C) :=
  map (λ k, (k, f (group_of k keys vals))) (group_keys keys).

(** [groupby(key)[col].transform('min')]: aligned with the rows; a row
    with a missing key gets NaN. *)
Definition transform_min (keys : list (option K)) (vals : list (option nat))
    : list (option nat) :=
  map (λ o, k ← o; min_skipna (group_of k keys vals)) keys.
End GroupBy.

(** Orders of the group keys. *)
Definition pair_leb {A B} `{!EqDecision A} (la : A → A → bool) (lb : B → B → bool)
    (x y : A * B) : bool :=
  if decide (x.1 = y.1) then lb x.2 y.2 else la x.1 y.1.

Definition date_leb : Z * Z * Z → Z * Z * Z → bool :=
  pair_leb (pair_leb Z.leb Z.leb) Z.leb.
Definition period_leb : Z * Z → Z * Z → bool := pair_leb Z.leb Z.leb.

(** [nlargest(n, col)] and [nsmallest(n, col)] with the default
    [keep='first']: the first [n] rows in decreasing (increasing) order of
    the column, rows with equal values in their original order. *)
Section SelectN.
Context {A : Type} (val : A → Q).

Definition nlargest (n : nat) (l : list A) : list A :=
  take n (stable_sort (λ x y, Qle_bool (val y) (val x)) l).
Definition nsmallest (n : nat) (l : list A) : list A :=
  take n (stable_sort (λ x y, Qle_bool (val x) (val y)) l).
End SelectN.

Definition count_val {K} (p : K * nat) : Q := inject_Z (Z.of_nat p.2).

(** ** Aggregators *)

Definition col {B} (f : row → B) (df : DataFrame) : list B := map f (rows df).

(** [df.groupby(key)['Effective_Throughput'].sum()] and its siblings. *)
Definition sum_by {K} `{!EqDecision K} (leb : K → K → bool)
    (key : row → option K) (val : row → option Q) (df : DataFrame) : list (K * Q) :=
  groupby_agg leb sum_skipna (col key df) (col val df).

Definition analyze_sales_trends (df : DataFrame)
    : DataFrame * (list (Z * Z * Z * Q) * list (string * Q)) :=
  let daily_sales :=
    sum_by date_leb (λ r, Some (date_of (InvoiceDate r))) Effective_Throughput df in
  (* sort_values(ascending=False).head(10) *)
  let top_products :=
    nlargest snd 10 (sum_by String.leb Sensor_Type Effective_Throughput df) in
  (df, (daily_sales, top_products)).

Definition analyze_customer_behavior (df : DataFrame)
    : DataFrame * (list (Z * nat) * list (string * Q)) :=
  let customer_freq :=
    groupby_agg Z.leb (length (A:=row)) (col Receiver_ID df) (rows df) in
  let country_sales := sum_by String.leb Transmission_Zone Effective_Throughput df in
  (df, (customer_freq, country_sales)).

Definition country_purchases (df : DataFrame) : list (string * Q) :=
  sum_by String.leb Transmission_Zone Effective_Throughput df.

Definition country_customers (df : DataFrame) : list (string * nat) :=
  groupby_agg String.leb nunique (col Transmission_Zone df) (col Receiver_ID df).

Definition analyze_country_performance (df : DataFrame)
    : DataFrame * (list (string * Q) * list (string * Q)
                   * list (string * nat) * list (string * nat)) :=
  let top_countries := nlargest snd 10 (country_purchases df) in
  let bottom_countries := nsmallest snd 10 (country_purchases df) in
  let top_customers := nlargest count_val 10 (country_customers df) in
  let bottom_customers := nsmallest count_val 10 (country_customers df) in
  (df, (top_countries, bottom_countries, top_customers, bottom_customers)).

Definition product_quantities (df : DataFrame) : list (string * Q) :=
  sum_by String.leb Sensor_Type Signal_Strength df.

Definition analyze_product_performance (df : DataFrame)
    : DataFrame * (list (string * Q) * list (string * Q)) :=
  let top_products := nlargest snd 10 (product_quantities df) in
  let bottom_products := nsmallest snd 10 (product_quantities df) in
  (df, (top_products, bottom_products)).

Definition quarter_column (df : DataFrame) : list string :=
  col (λ r, quarter_key (InvoiceDate r)) df.

Definition analyze_timeline_sales (df : DataFrame)
    : DataFrame * (list (string * Q) * list (Z * Z * Q)) :=
  let invoice_quarter := quarter_column df in
  let df := set_InvoiceQuarter df invoice_quarter in
  let quarterly_sales :=
    groupby_agg String.leb sum_skipna (Some <$> invoice_quarter)
                (col Effective_Throughput df) in
  let invoice_month := col (λ r, period_M (InvoiceDate r)) df in
  let df := set_InvoiceMonth df invoice_month in
  let monthly_sales :=
    groupby_agg period_leb sum_skipna (Some <$> invoice_month)
                (col Effective_Throughput df) in
  (df, (quarterly_sales, monthly_sales)).

(** ** Cohort engine *)

(** [dict(zip(s.unique(), range(len(s.unique()))))] *)
Definition quarters_map_of (invoice_quarter : list string) : dict string nat :=
  dict_of (zip (unique invoice_quarter) (seq 0 (length (unique invoice_quarter)))).

(** [dict(zip(quarters_map.values(), quarters_map.keys()))] *)
Definition inverse_map (quarters_map : dict string nat) : dict nat string :=
  dict_of (zip (dict_values quarters_map) (dict_keys quarters_map)).

Definition InvoiceQuarterID_of (df : DataFrame) : list (option nat) :=
  series_map (quarters_map_of (quarter_column df)) (Some <$> quarter_column df).

Definition CohortQuarterID_of (df : DataFrame) : list (option nat) :=
  transform_min (col Receiver_ID df) (InvoiceQuarterID_of df).

Definition CohortIndex_of (df : DataFrame) : list (option Z) :=
  zip_with nan_sub (InvoiceQuarterID_of df) (CohortQuarterID_of df).

(** The key of a record under [groupby(['CohortQuarterID', 'CohortIndex'])]:
    missing as soon as one of the two is. *)
Definition pair_key (a : option nat) (b : option Z) : option (nat * Z) :=
  x ← a; y ← b; Some (x, y).

(** [groupby([...])['Receiver_ID'].apply(pd.Series.nunique).reset_index()] *)
Definition cohort_counts (cohort_id : list (option nat)) (cohort_index : list (option Z))
    (receiver : list (option Z)) : list (nat * Z * nat) :=
  groupby_agg (pair_leb Nat.leb Z.leb) nunique
              (zip_with pair_key cohort_id cohort_index) receiver.

(** A two-dimensional table: row labels, column labels, cells. *)
Record frame (I : Type) := mk_frame {
  f_index : list I;
  f_columns : list Z;
  f_values : list (list (option Q))
}.
Global Arguments mk_frame {_} _ _ _.
Global Arguments f_index {_} _.
Global Arguments f_columns {_} _.
Global Arguments f_values {_} _.

Definition mean (l : list Q) : option Q :=
  match l with
  | [] => None
  | _ => Some (foldr Qplus 0 l / inject_Z (Z.of_nat (length l)))%Q
  end.

(** [pivot_table(index='CohortQuarterID', columns='CohortIndex',
    values='Customer_Count')], default aggregation (mean); a cell with no
    entry is NaN. *)
Definition pivot_table (t : list (nat * Z * nat)) : frame nat :=
  let index := stable_sort Nat.leb (unique (t.*1.*1)) in
  let columns := stable_sort Z.leb (unique (t.*1.*2)) in
  mk_frame index columns
    (map (λ i, map (λ c, mean (count_val <$> filter (λ e, e.1 = (i, c)) t)) columns)
         index).

(** [f.iloc[:, 0]]: the first column; IndexError ([None]) when the frame
    has no column. *)
Definition iloc_first_column {I} (f : frame I) : option (list (option Q)) :=
  match f_columns f with
  | [] => None
  | _ :: _ => Some (map (λ cells, mjoin (head cells)) (f_values f))
  end.

(** [f.divide(s, axis=0)] *)
Definition divide_rows (values : list (list (option Q))) (s : list (option Q))
    : list (list (option Q)) :=
  zip_with (λ cells size, map (λ c, nan_div c size) cells) values s.

(** [(retention * 100).round(2)] *)
Definition percent (values : list (list (option Q))) : list (list (option Q)) :=
  map (map (fmap (λ q, round2 (q * 100)%Q))) values.

(** The retention table drawn by the heat map, once the derived columns
    are there. *)
Definition retention_of (quarters_map : dict string nat)
    (cohort_id : list (option nat)) (cohort_index : list (option Z))
    (receiver : list (option Z)) : option (frame (option string)) :=
  let cohort_retention := cohort_counts cohort_id cohort_index receiver in
  let cohort_retention_count := pivot_table cohort_retention in
  let cohort_quarter :=
    series_map (inverse_map quarters_map) (Some <$> f_index cohort_retention_count) in
  let cohort_retention_count :=
    mk_frame cohort_quarter (f_columns cohort_retention_count)
             (f_values cohort_retention_count) in
  cohort_size ← iloc_first_column cohort_retention_count;
  let retention := divide_rows (f_values cohort_retention_count) cohort_size in
  let retention := percent retention in
  Some (mk_frame (reverse cohort_quarter) (f_columns cohort_retention_count)
                 (reverse retention)).

(** The function assigns five columns of the dataframe it was given, then
    builds the table; [None] for the table stands for the IndexError of
    [iloc] on a table without columns. *)
Definition analyze_cohort_retention (df : DataFrame)
    : DataFrame * option (frame (option string)) :=
  let invoice_quarter := quarter_column df in
  let df := set_InvoiceQuarter df invoice_quarter in
  let quarters_map := quarters_map_of invoice_quarter in
  let invoice_quarter_id := series_map quarters_map (Some <$> invoice_quarter) in
  let df := set_InvoiceQuarterID df invoice_quarter_id in
  let cohort_quarter_id := transform_min (col Receiver_ID df) invoice_quarter_id in
  let df := set_CohortQuarterID df cohort_quarter_id in
  let df := set_CohortQuarter df (series_map (inverse_map quarters_map) cohort_quarter_id) in
  let cohort_index := zip_with nan_sub invoice_quarter_id cohort_quarter_id in
  let df := set_CohortIndex df cohort_index in
  (df, retention_of quarters_map cohort_quarter_id cohort_index (col Receiver_ID df)).

(** [main]: the six analyses run one after the other on the same
    dataframe object. *)
Section Main.
Variable parse_numeric : string → option Q.
Variable parse_datetime : string → option datetime.

Definition main (csv : list raw_row) :=
  let df := load_and_preprocess_data parse_numeric parse_datetime csv in
  let '(df, sales_trends) := analyze_sales_trends df in
  let '(df, customer_behavior) := analyze_customer_behavior df in
  let '(df, country_performance) := analyze_country_performance df in
  let '(df, product_performance) := analyze_product_performance df in
  let '(df, cohort_retention) := analyze_cohort_retention df in
  let '(df, timeline_sales) := analyze_timeline_sales df in
  (df, (sales_trends, customer_behavior, country_performance,
        product_performance, cohort_retention, timeline_sales)).
End Main.

(** ** Relabelling script *)

Definition ece_products : list string := [
  "Arduino Uno R3 Development Board"; "Raspberry Pi 4 Model B";
  "ESP32 WiFi Development Board"; "Digital Multimeter"; "Logic Analyzer";
  "Function Generator"; "Oscilloscope Probe Set"; "Power Supply Unit";
  "PCB Etching Kit"; "Soldering Station"; "Component Starter Kit";
  "FPGA Development Board"; "Signal Generator"; "RF Spectrum Analyzer";
  "Network Analyzer"; "Logic Gate Trainer Kit"; "Microcontroller Starter Kit";
  "Digital Storage Oscilloscope"; "Signal Conditioning Module"; "RF Power Meter";
  "Breadboard Kit"; "Resistor Assortment Kit"; "Capacitor Kit"; "Inductor Set";
  "Transistor Pack"; "IC Chip Collection"; "LED Assortment"; "Sensor Kit";
  "Motor Driver Module"; "Relay Module"; "WiFi Module"; "Bluetooth Module";
  "GPS Module"; "RF Transceiver"; "Antenna Kit"; "PCB Prototype Board";
  "Wire Kit"; "Connector Set"; "Heat Sink Kit"; "Test Lead Set"
]%string.

Definition set_Description (r : raw_row) (d : option string) : raw_row :=
  mk_raw_row (Invoice r) (StockCode r) d (Quantity r) (InvoiceDate_text r)
             (Price r) (Customer_ID r) (Country r).

Section UpdateProducts.
(** [random.shuffle] and [random.sample]: whatever the generator returns
    for the list (and size) it is given. *)
Variable shuffle : list string → list string.
Variable sample : list string → nat → list string.

(** The mapping from the distinct descriptions (NaN is one of them when a
    description is empty) to product names. *)
Definition product_mapping (descriptions : list (option string))
    : dict (option string) string :=
  let unique_products := unique descriptions in
  let num_unique := length unique_products in
  if decide (length ece_products < num_unique)%nat then
    let repeat_times :=
      ((num_unique + length ece_products - 1) `div` length ece_products)%nat in
    let repeated_products := mjoin (replicate repeat_times ece_products) in
    let repeated_products := take num_unique repeated_products in
    let repeated_products := shuffle repeated_products in
    dict_of (zip unique_products repeated_products)
  else
    dict_of (zip unique_products (sample ece_products num_unique)).

(** [df['Description'] = df['Description'].map(product_mapping)]; the
    result is the table written to the output file. *)
Definition update_products (csv : list raw_row) : list raw_row :=
  let mapping := product_mapping (Description <$> csv) in
  map (λ r, set_Description r (dict_get mapping (Description r))) csv.
End UpdateProducts.

(** ** Specification-side notions *)

(** [m] is the least element of [l]. *)
Definition is_minimum (m : nat) (l : list nat) : Prop :=
  m ∈ l ∧ ∀ x, x ∈ l → (m ≤ x)%nat.

(** The bucket indices of the records of customer [c]. *)
Definition customer_buckets (df : DataFrame) (c : Z) : list nat :=
  omap id (group_of c (col Receiver_ID df) (InvoiceQuarterID_of df)).

(** Two loaded records that agree on everything but the item label. *)
Definition same_but_label (r r' : row) : Prop :=
  Packet_ID r' = Packet_ID r ∧ Sensor_ID r' = Sensor_ID r ∧
  Signal_Strength r' = Signal_Strength r ∧ InvoiceDate r' = InvoiceDate r ∧
  SNR r' = SNR r ∧ Receiver_ID r' = Receiver_ID r ∧
  Transmission_Zone r' = Transmission_Zone r ∧
  Effective_Throughput r' = Effective_Throughput r.

(** The [CohortQuarter] column the cohort engine assigns. *)
Definition CohortQuarter_of (df : DataFrame) : list (option string) :=
  series_map (inverse_map (quarters_map_of (quarter_column df))) (CohortQuarterID_of df).

(** The group key of each record under the cohort grouping. *)
Definition cohort_keys (df : DataFrame) : list (option (nat * Z)) :=
  zip_with pair_key (CohortQuarterID_of df) (CohortIndex_of df).

(** The values of the records whose key is present. *)
Definition with_key {K B} (keys : list (option K)) (vals : list B) : list B :=
  (filter (λ p, is_Some p.1) (zip keys vals)).*2.

(** [df['Effective_Throughput'].sum()] *)
Definition grand_total (df : DataFrame) : Q := sum_skipna (col Effective_Throughput df).

(** Sum of the aggregated column of a grouped table. *)
Definition total_of {K} (t : list (K * Q)) : Q := foldr Qplus 0%Q t.*2.

(** No two rows of a grouped table have the same value. *)
Definition values_distinct {A} (val : A → Q) (l : list A) : Prop :=
  ∀ i j x y, l !! i = Some x → l !! j = Some y → (val x == val y)%Q → i = j.

Fixpoint values_distinctb (l : list Q) : bool :=
  match l with
  | [] => true
  | x :: l' => forallb (λ y, negb (Qeq_bool x y)) l' && values_distinctb l'
  end.

(** The lists drawn by the country and product charts. *)
Definition top_countries (df : DataFrame) : list (string * Q) :=
  (analyze_country_performance df).2.1.1.1.
Definition bottom_countries (df : DataFrame) : list (string * Q) :=
  (analyze_country_performance df).2.1.1.2.
Definition top_customers (df : DataFrame) : list (string * nat) :=
  (analyze_country_performance df).2.1.2.
Definition bottom_customers (df : DataFrame) : list (string * nat) :=
  (analyze_country_performance df).2.2.
Definition top_products (df : DataFrame) : list (string * Q) :=
  (analyze_product_performance df).2.1.
Definition bottom_products (df : DataFrame) : list (string * Q) :=
  (analyze_product_performance df).2.2.

(** Number of distinct values of a dimension (a missing label is not a
    value). *)
Definition distinct_count (labels : list (option string)) : nat :=
  length (remove_dups (omap id labels)).

(** ** Example tables *)

Definition record_of (customer : option Z) (m y : Z) (zone : option string) (amount : Q) : row :=
  mk_row (Some "536365") (Some "85123A") (Some "Logic Analyzer") (Some 1%Q)
         (mk_datetime y m 1 8 26) (Some amount) customer zone (Some (1 * amount)%Q).

Definition loaded (t : list row) : DataFrame := mk_df t None None None None None None.

(** Customers 1 and 2 start in the first quarter seen, customer 3 in the
    second; customer 1 comes back in the second quarter. *)
Definition three_customers : DataFrame :=
  loaded [record_of (Some 1) 1 2010 (Some "United Kingdom") 2;
          record_of (Some 2) 2 2010 (Some "France") 3;
          record_of (Some 3) 4 2010 (Some "France") 5;
          record_of (Some 1) 5 2010 (Some "United Kingdom") 7].

(** The same customers, each buying several times within a quarter. *)
Definition three_customers_repeated : DataFrame :=
  loaded (rows three_customers ++ rows three_customers ++
          [record_of (Some 1) 6 2010 (Some "United Kingdom") 1]).

(** A record without region next to one with a region. *)
Definition one_without_region : DataFrame :=
  loaded [record_of (Some 1) 1 2010 (Some "United Kingdom") 2;
          record_of (Some 2) 2 2010 None 5].

(** A record without customer id between two records of customer 1. *)
Definition one_without_customer : DataFrame :=
  loaded [record_of (Some 1) 1 2010 (Some "United Kingdom") 2;
          record_of None 4 2010 (Some "United Kingdom") 5;
          record_of (Some 1) 5 2010 (Some "France") 3].

(** Twenty regions and twenty products, one record each, with the given
    quantity and price. *)
Definition twenty_regions (quantity price : nat → Q) : DataFrame :=
  loaded (map (λ n : nat,
                 mk_row (Some "536365") (Some "85123A") (Some ("P" +:+ pretty n))
                        (Some (quantity n)) (mk_datetime 2010 1 1 8 26)
                        (Some (price n)) (Some (Z.of_nat n))
                        (Some ("R" +:+ pretty n))
                        (Some (quantity n * price n)%Q))
              (seq 0 20)).

Definition twenty_equal : DataFrame := twenty_regions (λ _, 1%Q) (λ _, 1%Q).
Definition twenty_different : DataFrame :=
  twenty_regions (λ n, inject_Z (Z.of_nat n)) (λ _, 1%Q).

(** Three lines of the retail file, two of them with the same description
    and one without description. *)
Definition example_csv : list raw_row :=
  [mk_raw_row (Some "489434") (Some "85048") (Some "WHITE CHERRY LIGHTS")
              (Some "12") (Some "12/1/09 7:45") (Some "6.95") (Some 13085)
              (Some "United Kingdom");
   mk_raw_row (Some "489434") (Some "79323P") None
              (Some "12") (Some "12/1/09 7:45") (Some "6.75") (Some 13085)
              (Some "United Kingdom");
   mk_raw_row (Some "489435") (Some "85048") (Some "WHITE CHERRY LIGHTS")
              (Some "2") (Some "12/1/09 7:46") (Some "6.95") None
              (Some "France")].

(** The retention value in the row labelled [label], column [offset]. *)
Definition retention_at (f : frame (option string)) (label : string) (offset : Z)
    : option Q :=
  i ← list_find (λ l, l = Some label) (f_index f);
  j ← list_find (λ c, c = offset) (f_columns f);
  cells ← f_values f !! i.1;
  mjoin (cells !! j.1).

(** * Properties *)

(** ** First-seen deduplication *)

Section UniqueFacts.
Context {A : Type} `{!EqDecision A}.
Implicit Types (l seen : list A) (x : A).

Lemma unique_from_elem seen l x :
  x ∈ unique_from seen l ↔ x ∈ l ∧ x ∉ seen.
Proof.
  revert seen. induction l as [|y l IH]; intros seen; simpl.
  - rewrite !elem_of_nil. tauto.
  - destruct (decide (y ∈ seen)) as [Hy|Hy].
    + rewrite IH, elem_of_cons. split; [tauto|].
      intros [[->|?] ?]; tauto.
    + rewrite elem_of_cons, IH, !elem_of_cons. split.
      * intros [->|[? ?]]; tauto.
      * intros [[->|?] ?]; [tauto|].
        destruct (decide (x = y)); tauto.
Qed.

Lemma unique_from_NoDup seen l : NoDup (unique_from seen l).
Proof.
  revert seen. induction l as [|y l IH]; intros seen; simpl.
  - constructor.
  - destruct (decide (y ∈ seen)); [apply IH|].
    constructor; [|apply IH].
    rewrite unique_from_elem, elem_of_cons. tauto.
Qed.

Lemma unique_from_ext seen1 seen2 l :
  (∀ x, x ∈ seen1 ↔ x ∈ seen2) → unique_from seen1 l = unique_from seen2 l.
Proof.
  revert seen1 seen2. induction l as [|y l IH]; intros s1 s2 Hs; simpl; [done|].
  destruct (decide (y ∈ s1)) as [H1|H1], (decide (y ∈ s2)) as [H2|H2];
    try (exfalso; apply Hs in H1 || apply Hs in H2; tauto).
  - by apply IH.
  - f_equal. apply IH. intros x. rewrite !elem_of_cons, Hs. tauto.
Qed.

Lemma unique_from_app seen l1 l2 :
  unique_from seen (l1 ++ l2) = unique_from seen l1 ++ unique_from (l1 ++ seen) l2.
Proof.
  revert seen. induction l1 as [|y l1 IH]; intros seen; simpl; [done|].
  destruct (decide (y ∈ seen)) as [Hy|Hy].
  - rewrite IH. f_equal. apply unique_from_ext.
    intros x. rewrite elem_of_cons, !elem_of_app. split; [tauto|].
    intros [->|?]; tauto.
  - rewrite IH. simpl. do 2 f_equal. apply unique_from_ext.
    intros x. rewrite elem_of_cons, !elem_of_app, elem_of_cons. tauto.
Qed.

Lemma unique_elem l x : x ∈ unique l ↔ x ∈ l.
Proof. unfold unique. rewrite unique_from_elem, elem_of_nil. tauto. Qed.

Lemma unique_NoDup l : NoDup (unique l).
Proof. apply unique_from_NoDup. Qed.

Lemma unique_length_remove_dups l : length (unique l) = length (remove_dups l).
Proof.
  apply Permutation_length, NoDup_Permutation.
  - apply unique_NoDup.
  - apply NoDup_remove_dups.
  - intros x. by rewrite unique_elem, elem_of_remove_dups.
Qed.

(** A value first seen at position [j] comes out after the distinct values
    of the first [j] positions. *)
Lemma unique_first_seen l j x :
  l !! j = Some x → x ∉ take j l →
  unique l !! length (unique (take j l)) = Some x.
Proof.
  intros Hj Hnew.
  unfold unique.
  replace (unique_from [] l)
    with (unique_from [] (take j l ++ x :: drop (S j) l))
    by (by rewrite take_drop_middle).
  rewrite unique_from_app. simpl.
  rewrite decide_False by (rewrite elem_of_app, elem_of_nil; tauto).
  by rewrite list_lookup_middle.
Qed.
End UniqueFacts.

(** ** Dictionaries *)

Section DictFacts.
Context {K V : Type} `{!EqDecision K}.
Implicit Types (d : dict K V) (k : K) (v : V).

Lemma dict_set_fresh d k v : k ∉ d.*1 → dict_set d k v = d ++ [(k, v)].
Proof.
  induction d as [|[k' v'] d IH]; simpl; [done|].
  rewrite elem_of_cons. intros Hk.
  rewrite decide_False by (intros ->; tauto).
  rewrite IH by tauto. done.
Qed.

Lemma dict_of_from d (l : list (K * V)) :
  NoDup (d.*1 ++ l.*1) → foldl (λ d p, dict_set d p.1 p.2) d l = d ++ l.
Proof.
  revert d. induction l as [|[k v] l IH]; intros d Hnd; simpl.
  - by rewrite app_nil_r.
  - simpl in Hnd.
    rewrite dict_set_fresh.
    + rewrite IH; [by rewrite <- app_assoc|].
      rewrite fmap_app. simpl. by rewrite <- app_assoc.
    + apply NoDup_app in Hnd as (_ & Hd & _).
      intros Hin. apply (Hd k Hin). left.
Qed.

Lemma dict_of_NoDup (l : list (K * V)) : NoDup l.*1 → dict_of l = l.
Proof. intros Hnd. unfold dict_of. by rewrite dict_of_from. Qed.

Lemma dict_get_zip (ks : list K) (vs : list V) k v :
  NoDup ks → length ks = length vs →
  dict_get (zip ks vs) k = Some v ↔ ∃ i, ks !! i = Some k ∧ vs !! i = Some v.
Proof.
  intros Hnd. revert vs. induction Hnd as [|k0 ks Hk0 Hnd IH]; intros vs Hlen.
  - simpl. split; [done|]. by intros (i & ? & _).
  - destruct vs as [|v0 vs]; [done|]. simpl.
    destruct (decide (k0 = k)) as [->|Hne].
    + split.
      * intros [= ->]. by exists 0%nat.
      * intros ([|i] & Hi & Hv); simpl in *; [congruence|].
        exfalso. apply Hk0. by eapply list_elem_of_lookup_2.
    + rewrite IH by (simpl in Hlen; lia). split.
      * intros (i & ? & ?). by exists (S i).
      * intros ([|i] & Hi & Hv); simpl in *; [congruence|]. by exists i.
Qed.
End DictFacts.

(** ** Bucket indices *)

Lemma quarters_map_of_zip (keys : list string) :
  quarters_map_of keys = zip (unique keys) (seq 0 (length (unique keys))).
Proof.
  apply dict_of_NoDup. rewrite fst_zip by (rewrite length_seq; lia).
  apply unique_NoDup.
Qed.

Lemma quarters_map_get (keys : list string) key i :
  dict_get (quarters_map_of keys) key = Some i ↔ unique keys !! i = Some key.
Proof.
  rewrite quarters_map_of_zip, dict_get_zip
    by (apply unique_NoDup || by rewrite length_seq).
  split.
  - intros (j & Hj & Hs). apply lookup_seq in Hs as [-> _]. done.
  - intros Hi. exists i. split; [done|]. apply lookup_seq.
    split; [done|]. by eapply lookup_lt_Some.
Qed.

Lemma quarters_map_defined (keys : list string) key :
  key ∈ keys → ∃ i, dict_get (quarters_map_of keys) key = Some i.
Proof.
  intros Hin. apply unique_elem, list_elem_of_lookup in Hin as [i Hi].
  exists i. by apply quarters_map_get.
Qed.

Lemma InvoiceQuarterID_lookup (df : DataFrame) i r :
  rows df !! i = Some r →
  ∃ b, InvoiceQuarterID_of df !! i = Some (Some b) ∧
       dict_get (quarters_map_of (quarter_column df)) (quarter_key (InvoiceDate r)) = Some b.
Proof.
  intros Hi.
  destruct (quarters_map_defined (quarter_column df) (quarter_key (InvoiceDate r)))
    as [b Hb].
  { unfold quarter_column, col. apply list_elem_of_fmap. exists r.
    split; [done|]. by eapply list_elem_of_lookup_2. }
  exists b. split; [|done].
  unfold InvoiceQuarterID_of, series_map, quarter_column, col.
  rewrite !list_lookup_fmap, Hi. simpl. by f_equal.
Qed.

(** ** Groups *)

Section GroupFacts.
Context {K : Type} `{!EqDecision K}.

Lemma elem_of_group_of {B} (k : K) (keys : list (option K)) (vals : list B) x :
  x ∈ group_of k keys vals ↔ ∃ i, keys !! i = Some (Some k) ∧ vals !! i = Some x.
Proof.
  unfold group_of. rewrite list_elem_of_fmap. split.
  - intros ([o y] & -> & Hin). apply list_elem_of_filter in Hin as [Hk Hin].
    simpl in Hk. subst o. apply list_elem_of_lookup in Hin as [i Hi].
    apply lookup_zip_with_Some in Hi as (a & b & [= <- <-] & Ha & Hb).
    by exists i.
  - intros (i & Hk & Hv). exists (Some k, x). split; [done|].
    apply list_elem_of_filter. split; [done|].
    apply list_elem_of_lookup. exists i.
    apply lookup_zip_with_Some. by exists (Some k), x.
Qed.
End GroupFacts.

Lemma foldr_min_is_minimum (x : nat) (xs : list nat) :
  is_minimum (foldr Nat.min x xs) (x :: xs).
Proof.
  induction xs as [|y xs [Hin Hle]]; simpl.
  - split; [left|]. intros z Hz. apply list_elem_of_singleton in Hz. lia.
  - split.
    + destruct (Nat.min_spec y (foldr Nat.min x xs)) as [[_ ->]|[_ ->]].
      * right. left.
      * apply elem_of_cons in Hin as [->|Hin]; [left|right; by right].
    + intros z Hz.
      assert (z = y ∨ z ∈ x :: xs) as [->|Hz'].
      { rewrite !elem_of_cons in *. tauto. }
      * lia.
      * specialize (Hle z Hz'). lia.
Qed.

Lemma min_skipna_defined (l : list (option nat)) (x : nat) :
  Some x ∈ l → ∃ m, min_skipna l = Some m ∧ is_minimum m (omap id l).
Proof.
  intros Hin. unfold min_skipna.
  assert (x ∈ omap id l) as Hx by (apply list_elem_of_omap; by exists (Some x)).
  destruct (omap id l) as [|y ys]; [by apply elem_of_nil in Hx|].
  eexists. split; [done|]. apply foldr_min_is_minimum.
Qed.

Lemma transform_min_lookup (keys : list (option Z)) (vals : list (option nat)) i c b :
  keys !! i = Some (Some c) → vals !! i = Some (Some b) →
  ∃ m, transform_min keys vals !! i = Some (Some m) ∧
       is_minimum m (omap id (group_of c keys vals)) ∧ (m ≤ b)%nat.
Proof.
  intros Hk Hv.
  destruct (min_skipna_defined (group_of c keys vals) b) as (m & Hm & Hmin).
  { apply elem_of_group_of. by exists i. }
  exists m. split; [|split; [done|]].
  - unfold transform_min. rewrite list_lookup_fmap, Hk. simpl. by f_equal.
  - apply Hmin. apply list_elem_of_omap. exists (Some b). split; [|done].
    apply elem_of_group_of. by exists i.
Qed.

Lemma analyze_cohort_retention_columns (df : DataFrame) :
  let df' := (analyze_cohort_retention df).1 in
  rows df' = rows df ∧
  InvoiceQuarter df' = Some (quarter_column df) ∧
  InvoiceQuarterID df' = Some (InvoiceQuarterID_of df) ∧
  CohortQuarterID df' = Some (CohortQuarterID_of df) ∧
  CohortIndex df' = Some (CohortIndex_of df).
Proof. by repeat split. Qed.

Lemma cohort_columns_lookup (df : DataFrame) (i : nat) (r : row) (c : Z) :
  rows df !! i = Some r → Receiver_ID r = Some c →
  ∃ b m : nat,
    InvoiceQuarterID_of df !! i = Some (Some b) ∧
    CohortQuarterID_of df !! i = Some (Some m) ∧
    is_minimum m (customer_buckets df c) ∧
    (m ≤ b)%nat ∧
    CohortIndex_of df !! i = Some (Some (Z.of_nat b - Z.of_nat m)).
Proof.
  intros Hi Hc.
  destruct (InvoiceQuarterID_lookup df i r Hi) as (b & Hb & _).
  destruct (transform_min_lookup (col Receiver_ID df) (InvoiceQuarterID_of df) i c b)
    as (m & Hm & Hmin & Hle); [|done|].
  { unfold col. by rewrite list_lookup_fmap, Hi, <- Hc. }
  exists b, m. repeat split; try done.
  - apply Hmin.
  - apply Hmin.
  - unfold CohortIndex_of. apply lookup_zip_with_Some.
    exists (Some b), (Some m). by repeat split.
Qed.


(** C9: the bucket mapping of the cohort engine sends the [k] distinct
    quarter keys of the table one-to-one onto 0, ..., k-1, and the index of
    a key is the number of distinct keys in the rows before its first
    occurrence. *)
Theorem quarters_map_first_seen_dense (df : DataFrame) :
  let keys := quarter_column df in
  let quarters_map := quarters_map_of keys in
  let k := length (remove_dups keys) in
  dict_values quarters_map = seq 0 k ∧
  (∀ key, key ∈ dict_keys quarters_map ↔ key ∈ keys) ∧
  (∀ key, key ∈ keys → ∃ i, dict_get quarters_map key = Some i ∧ (i < k)%nat) ∧
  (∀ key1 key2 i,
     dict_get quarters_map key1 = Some i → dict_get quarters_map key2 = Some i →
     key1 = key2) ∧
  (∀ i, (i < k)%nat → ∃ key, key ∈ keys ∧ dict_get quarters_map key = Some i) ∧
  (∀ j key, keys !! j = Some key → key ∉ take j keys →
     dict_get quarters_map key = Some (length (remove_dups (take j keys)))).
Proof.
  intros keys quarters_map k. subst quarters_map k.
  rewrite <- unique_length_remove_dups.
  repeat split.
  - rewrite quarters_map_of_zip. unfold dict_values.
    by rewrite snd_zip by (rewrite length_seq; lia).
  - rewrite quarters_map_of_zip. unfold dict_keys.
    rewrite fst_zip by (rewrite length_seq; lia). apply unique_elem.
  - rewrite quarters_map_of_zip. unfold dict_keys.
    rewrite fst_zip by (rewrite length_seq; lia). apply unique_elem.
  - intros key Hin. destruct (quarters_map_defined keys key Hin) as [i Hi].
    exists i. split; [done|]. apply quarters_map_get in Hi.
    by eapply lookup_lt_Some.
  - intros key1 key2 i H1 H2. apply quarters_map_get in H1, H2. congruence.
  - intros i Hlt. destruct (lookup_lt_is_Some_2 (unique keys) i Hlt) as [key Hkey].
    exists key. split; [|by apply quarters_map_get].
    apply unique_elem. by eapply list_elem_of_lookup_2.
  - intros j key Hj Hnew. rewrite <- unique_length_remove_dups.
    apply quarters_map_get. by apply unique_first_seen.
Qed.

(** ** Loader *)

Section LoaderFacts.
Variable parse_numeric : string → option Q.
Variable parse_datetime : string → option datetime.

Local Abbreviation load_row := (load_row parse_numeric parse_datetime).
Local Abbreviation load := (load_and_preprocess_data parse_numeric parse_datetime).

Lemma load_app (csv1 csv2 : list raw_row) :
  rows (load (csv1 ++ csv2)) = rows (load csv1) ++ rows (load csv2).
Proof. simpl. apply omap_app. Qed.

Lemma load_row_fields (x : raw_row) (r : row) :
  load_row x = Some r →
  to_datetime parse_datetime (InvoiceDate_text x) = Some (InvoiceDate r) ∧
  Signal_Strength r = to_numeric parse_numeric (Quantity x) ∧
  SNR r = to_numeric parse_numeric (Price x) ∧
  Effective_Throughput r = nan_mul (Signal_Strength r) (SNR r) ∧
  Sensor_Type r = Description x ∧
  Receiver_ID r = Customer_ID x ∧
  Transmission_Zone r = Country x.
Proof.
  unfold load_row.
  destruct (to_datetime parse_datetime (InvoiceDate_text x)) as [d|]; [|done].
  intros [= <-]. by repeat split.
Qed.

End LoaderFacts.

(** ** The worked example *)

(** C3: on the three-customer table the cohort engine counts distinct
    customers: cohort 0 has 2 customers at offset 0 and 1 at offset 1, cohort
    1 has 1 at offset 0, and the retention of cohort 0 at offset 1 is 50.00;
    repeating transactions of the same customers changes nothing. *)
Theorem three_customers_retention :
  InvoiceQuarterID_of three_customers = [Some 0; Some 0; Some 1; Some 1]%nat ∧
  CohortQuarterID_of three_customers = [Some 0; Some 0; Some 1; Some 0]%nat ∧
  cohort_counts (CohortQuarterID_of three_customers) (CohortIndex_of three_customers)
                (col Receiver_ID three_customers)
    = [(0%nat, 0, 2%nat); (0%nat, 1, 1%nat); (1%nat, 0, 1%nat)] ∧
  (analyze_cohort_retention three_customers).2
    = Some (mk_frame [Some "Q2/2010"; Some "Q1/2010"] [0; 1]
              [[Some 100.00%Q; None]; [Some 100.00%Q; Some 50.00%Q]]) ∧
  (∀ f, (analyze_cohort_retention three_customers).2 = Some f →
        ∃ v, retention_at f "Q1/2010" 1 = Some v ∧ (v == 50)%Q) ∧
  cohort_counts (CohortQuarterID_of three_customers_repeated)
                (CohortIndex_of three_customers_repeated)
                (col Receiver_ID three_customers_repeated)
    = [(0%nat, 0, 2%nat); (0%nat, 1, 1%nat); (1%nat, 0, 1%nat)] ∧
  (analyze_cohort_retention three_customers_repeated).2
    = (analyze_cohort_retention three_customers).2.
Proof.
  split_and!; try by vm_compute.
  intros f [= <-]. eexists. split; [by vm_compute|]. by vm_compute.
Qed.

(** ** What the analyses do to the dataframe *)

(** The claim of C4 fails for the cohort engine and for the timeline
    analysis: each assigns columns of the dataframe it is given, and the
    caller sees them. *)
Lemma cohort_and_timeline_assign_columns :
  (analyze_cohort_retention three_customers).1 ≠ three_customers ∧
  InvoiceQuarter (analyze_cohort_retention three_customers).1
    = Some ["Q1/2010"; "Q1/2010"; "Q2/2010"; "Q2/2010"]%string ∧
  CohortIndex (analyze_cohort_retention three_customers).1
    = Some [Some 0; Some 0; Some 0; Some 1] ∧
  (analyze_timeline_sales three_customers).1 ≠ three_customers ∧
  InvoiceMonth (analyze_timeline_sales three_customers).1
    = Some [(2010, 1); (2010, 2); (2010, 4); (2010, 5)].
Proof. split_and!; by vm_compute. Qed.

(** C4, amended: the four aggregators before the cohort engine return the
    dataframe as they got it; the cohort engine and the timeline analysis
    leave the loader's columns and their values as they were and only assign
    their derived columns; and the result of each of the six analyses is a
    function of the loader's columns alone, so that no analysis reads what
    another one has assigned. *)
Theorem analyses_keep_loaded_columns (df : DataFrame) :
  (analyze_sales_trends df).1 = df ∧
  (analyze_customer_behavior df).1 = df ∧
  (analyze_country_performance df).1 = df ∧
  (analyze_product_performance df).1 = df ∧
  (rows (analyze_cohort_retention df).1 = rows df ∧
   InvoiceMonth (analyze_cohort_retention df).1 = InvoiceMonth df) ∧
  (rows (analyze_timeline_sales df).1 = rows df ∧
   InvoiceQuarter (analyze_timeline_sales df).1 = Some (quarter_column df) ∧
   InvoiceQuarterID (analyze_timeline_sales df).1 = InvoiceQuarterID df ∧
   CohortQuarterID (analyze_timeline_sales df).1 = CohortQuarterID df ∧
   CohortQuarter (analyze_timeline_sales df).1 = CohortQuarter df ∧
   CohortIndex (analyze_timeline_sales df).1 = CohortIndex df) ∧
  (∀ df2, rows df2 = rows df →
     (analyze_sales_trends df2).2 = (analyze_sales_trends df).2 ∧
     (analyze_customer_behavior df2).2 = (analyze_customer_behavior df).2 ∧
     (analyze_country_performance df2).2 = (analyze_country_performance df).2 ∧
     (analyze_product_performance df2).2 = (analyze_product_performance df).2 ∧
     (analyze_cohort_retention df2).2 = (analyze_cohort_retention df).2 ∧
     (analyze_timeline_sales df2).2 = (analyze_timeline_sales df).2).
Proof.
  split_and!; try done.
  intros df2 Hrows.
  unfold analyze_sales_trends, analyze_customer_behavior, analyze_country_performance,
    analyze_product_performance, analyze_cohort_retention, analyze_timeline_sales,
    country_purchases, country_customers, product_quantities, sum_by,
    quarter_column, col; simpl.
  by rewrite Hrows.
Qed.

Lemma analyses_keep_loaded_columns_witness :
  (analyze_cohort_retention (analyze_timeline_sales three_customers).1).2
    = (analyze_cohort_retention three_customers).2.
Proof.
  apply (analyses_keep_loaded_columns three_customers).
  reflexivity.
Defined.

(** ** Relabelling *)

Lemma same_but_label_columns (t t' : list row) :
  Forall2 same_but_label t t' →
  map Signal_Strength t' = map Signal_Strength t ∧
  map SNR t' = map SNR t ∧
  map Effective_Throughput t' = map Effective_Throughput t.
Proof.
  induction 1 as [|r r' t t' (_&_&Hq&_&Hp&_&_&Ha) _ (IHq&IHp&IHa)]; [done|].
  simpl. by rewrite Hq, Hp, Ha, IHq, IHp, IHa.
Qed.

Section RelabelFacts.
Variable shuffle : list string → list string.
Variable sample : list string → nat → list string.
Variable parse_numeric : string → option Q.
Variable parse_datetime : string → option datetime.

Local Abbreviation load_row := (load_row parse_numeric parse_datetime).
Local Abbreviation load := (load_and_preprocess_data parse_numeric parse_datetime).

Lemma load_row_relabelled (x : raw_row) (d : option string) :
  match load_row x, load_row (set_Description x d) with
  | Some r, Some r' => same_but_label r r'
  | None, None => True
  | _, _ => False
  end.
Proof.
  unfold load_row. simpl.
  destruct (to_datetime parse_datetime (InvoiceDate_text x)); [|done].
  by repeat split.
Qed.

Lemma load_relabelled (g : raw_row → option string) (csv : list raw_row) :
  Forall2 same_but_label
    (omap load_row csv)
    (omap load_row (map (λ x, set_Description x (g x)) csv)).
Proof.
  induction csv as [|x csv IH]; simpl; [constructor|].
  pose proof (load_row_relabelled x (g x)) as Hx.
  destruct (load_row x), (load_row (set_Description x (g x))); try done.
  by constructor.
Qed.

(** C7: the relabelling script changes the description column only. Row
    by row the output has the fields of the input, among them quantity and
    unit price; and loading the relabelled file gives, record by record, the
    quantity, unit price and amount that loading the original gives. *)
Theorem relabel_changes_labels_only (csv : list raw_row) :
  let out := update_products shuffle sample csv in
  length out = length csv ∧
  (∀ i x, csv !! i = Some x →
     ∃ y, out !! i = Some y ∧
          Quantity y = Quantity x ∧ Price y = Price x ∧
          Invoice y = Invoice x ∧ StockCode y = StockCode x ∧
          InvoiceDate_text y = InvoiceDate_text x ∧
          Customer_ID y = Customer_ID x ∧ Country y = Country x) ∧
  Forall2 same_but_label (rows (load csv)) (rows (load out)) ∧
  col Signal_Strength (load out) = col Signal_Strength (load csv) ∧
  col SNR (load out) = col SNR (load csv) ∧
  col Effective_Throughput (load out) = col Effective_Throughput (load csv).
Proof.
  intros out. subst out. unfold update_products.
  set (g := λ r : raw_row, dict_get (product_mapping shuffle sample (Description <$> csv))
                             (Description r)).
  pose proof (load_relabelled g csv) as Hrel.
  split_and!.
  - by rewrite length_map.
  - intros i x Hi. exists (set_Description x (g x)). split; [|done].
    by rewrite list_lookup_fmap, Hi.
  - done.
  - by apply same_but_label_columns.
  - by apply same_but_label_columns.
  - by apply same_but_label_columns.
Qed.
End RelabelFacts.

(** ** Sorting *)

Section SortFacts.
Context {A : Type} (leb : A → A → bool).

Lemma sort_insert_Permutation (x : A) (l : list A) : sort_insert leb x l ≡ₚ x :: l.
Proof.
  induction l as [|y l IH]; simpl; [done|].
  destruct (leb x y); [done|]. rewrite IH. apply Permutation_swap.
Qed.

Lemma stable_sort_Permutation (l : list A) : stable_sort leb l ≡ₚ l.
Proof.
  induction l as [|x l IH]; simpl; [done|].
  by rewrite sort_insert_Permutation, IH.
Qed.

Lemma stable_sort_elem (l : list A) (x : A) : x ∈ stable_sort leb l ↔ x ∈ l.
Proof. by rewrite stable_sort_Permutation. Qed.

Lemma stable_sort_NoDup (l : list A) : NoDup l → NoDup (stable_sort leb l).
Proof. by rewrite stable_sort_Permutation. Qed.

Lemma stable_sort_length (l : list A) : length (stable_sort leb l) = length l.
Proof. by rewrite stable_sort_Permutation. Qed.

Hypothesis leb_total : ∀ x y, leb x y = false → leb y x = true.
Hypothesis leb_trans : ∀ x y z, leb x y = true → leb y z = true → leb x z = true.

Lemma sort_insert_sorted (x : A) (l : list A) :
  StronglySorted (λ a b, leb a b = true) l →
  StronglySorted (λ a b, leb a b = true) (sort_insert leb x l).
Proof.
  induction 1 as [|y l Hs IH Hy]; simpl.
  - repeat constructor.
  - destruct (leb x y) eqn:Hxy.
    + constructor; [by constructor|].
      constructor; [done|]. eapply Forall_impl; [exact Hy|].
      intros z Hz. by eapply leb_trans.
    + constructor; [done|].
      apply Forall_forall. intros z Hz.
      rewrite sort_insert_Permutation in Hz. apply elem_of_cons in Hz as [->|Hz].
      * by apply leb_total.
      * by eapply Forall_forall in Hy.
Qed.

Lemma stable_sort_sorted (l : list A) :
  StronglySorted (λ a b, leb a b = true) (stable_sort leb l).
Proof.
  induction l as [|x l IH]; simpl; [constructor|]. by apply sort_insert_sorted.
Qed.
End SortFacts.

Lemma StronglySorted_take {A} (R : relation A) (l : list A) (n : nat) :
  StronglySorted R l → StronglySorted R (take n l).
Proof.
  intros Hs. rewrite <- (take_drop n l) in Hs.
  by apply StronglySorted_app_1_l in Hs.
Qed.

Lemma StronglySorted_take_drop {A} (R : relation A) (l : list A) (n : nat) x y :
  StronglySorted R l → x ∈ take n l → y ∈ drop n l → R x y.
Proof.
  intros Hs Hx Hy. rewrite <- (take_drop n l) in Hs.
  by eapply StronglySorted_app_1_elem_of.
Qed.

Lemma StronglySorted_weaken {A} (R S : relation A) (l : list A) :
  (∀ x y, R x y → S x y) → StronglySorted R l → StronglySorted S l.
Proof.
  intros HRS. induction 1 as [|x l _ IH Hx]; constructor; [done|].
  eapply Forall_impl; [exact Hx|]. intros y. apply HRS.
Qed.

Lemma Qle_bool_total (x y : Q) : Qle_bool x y = false → Qle_bool y x = true.
Proof.
  intros Hf. apply Qle_bool_iff.
  destruct (Qlt_le_dec y x) as [Hlt|Hle].
  - by apply Qlt_le_weak.
  - apply Qle_bool_iff in Hle. congruence.
Qed.

Lemma Qle_bool_trans (x y z : Q) :
  Qle_bool x y = true → Qle_bool y z = true → Qle_bool x z = true.
Proof. rewrite !Qle_bool_iff. apply Qle_trans. Qed.

Section SelectNFacts.
Context {A : Type} (val : A → Q).

Lemma nlargest_sorted (n : nat) (l : list A) :
  StronglySorted (λ x y, (val y <= val x)%Q) (nlargest val n l).
Proof.
  apply StronglySorted_take.
  eapply (StronglySorted_weaken (λ a b, Qle_bool (val b) (val a) = true)).
  - intros x y; simpl. apply Qle_bool_iff.
  - apply stable_sort_sorted.
    + intros x y. apply Qle_bool_total.
    + intros x y z H1 H2. by eapply Qle_bool_trans.
Qed.

Lemma nsmallest_sorted (n : nat) (l : list A) :
  StronglySorted (λ x y, (val x <= val y)%Q) (nsmallest val n l).
Proof.
  apply StronglySorted_take.
  eapply (StronglySorted_weaken (λ a b, Qle_bool (val a) (val b) = true)).
  - intros x y; simpl. apply Qle_bool_iff.
  - apply stable_sort_sorted.
    + intros x y. apply Qle_bool_total.
    + intros x y z. apply Qle_bool_trans.
Qed.
End SelectNFacts.

(** ** Grouped sums *)

Lemma sum_skipna_cons (v : option Q) (l : list (option Q)) :
  sum_skipna (v :: l) = match v with Some q => (q + sum_skipna l)%Q | None => sum_skipna l end.
Proof. by destruct v. Qed.

Section GroupByFacts.
Context {K : Type} `{!EqDecision K} (leb : K → K → bool).
Implicit Types (keys : list (option K)) (k : K).

Lemma group_keys_NoDup keys : NoDup (group_keys leb keys).
Proof. apply stable_sort_NoDup, unique_NoDup. Qed.

Lemma group_keys_elem keys k : k ∈ group_keys leb keys ↔ Some k ∈ keys.
Proof.
  unfold group_keys. rewrite stable_sort_elem, unique_elem, list_elem_of_omap.
  split.
  - intros (o & Ho & Hk). simpl in Hk. by subst o.
  - intros Hin. by exists (Some k).
Qed.

Lemma group_keys_length keys :
  length (group_keys leb keys) = length (remove_dups (omap id keys)).
Proof.
  unfold group_keys. by rewrite stable_sort_length, unique_length_remove_dups.
Qed.

Lemma groupby_agg_keys {B C} (f : list B → C) keys (vals : list B) :
  (groupby_agg leb f keys vals).*1 = group_keys leb keys.
Proof.
  unfold groupby_agg. rewrite <- list_fmap_compose.
  induction (group_keys leb keys) as [|k ks IH]; [done|].
  rewrite fmap_cons. simpl. by f_equal.
Qed.

Lemma groupby_agg_elem {B C} (f : list B → C) keys (vals : list B) (p : K * C) :
  p ∈ groupby_agg leb f keys vals ↔
  Some p.1 ∈ keys ∧ p.2 = f (group_of p.1 keys vals).
Proof.
  unfold groupby_agg. rewrite list_elem_of_fmap. split.
  - intros (k & -> & Hk). simpl. by apply group_keys_elem in Hk.
  - intros [Hk Hv]. exists p.1. split; [|by apply group_keys_elem].
    destruct p as [k c]; simpl in *. by subst c.
Qed.

Lemma group_of_cons {B} k (o : option K) keys (v : B) (vals : list B) :
  group_of k (o :: keys) (v :: vals)
  = if decide (o = Some k) then v :: group_of k keys vals else group_of k keys vals.
Proof.
  unfold group_of. simpl. rewrite filter_cons. simpl.
  by destruct (decide (o = Some k)).
Qed.

Lemma group_of_nil_r {B} k keys : group_of k keys (@nil B) = [].
Proof. unfold group_of. by destruct keys. Qed.

Lemma with_key_cons {B} (o : option K) keys (v : B) (vals : list B) :
  with_key (o :: keys) (v :: vals)
  = if decide (is_Some o) then v :: with_key keys vals else with_key keys vals.
Proof.
  unfold with_key.
  change (zip (o :: keys) (v :: vals)) with ((o, v) :: zip keys vals).
  rewrite filter_cons. simpl. by destruct (decide (is_Some o)).
Qed.

Lemma sum_unchanged (ks : list K) (f g : K → Q) :
  (∀ k, k ∈ ks → (g k == f k)%Q) →
  (foldr Qplus 0 (map g ks) == foldr Qplus 0 (map f ks))%Q.
Proof.
  induction ks as [|k ks IH]; intros Hfg; simpl; [reflexivity|].
  rewrite IH, (Hfg k) by (intros; apply Hfg; by right) || left. reflexivity.
Qed.

Lemma sum_add_once (ks : list K) (k0 : K) (a : Q) (f g : K → Q) :
  NoDup ks → k0 ∈ ks →
  (g k0 == a + f k0)%Q → (∀ k, k ≠ k0 → (g k == f k)%Q) →
  (foldr Qplus 0 (map g ks) == a + foldr Qplus 0 (map f ks))%Q.
Proof.
  intros Hnd Hin H0 Hne.
  induction Hnd as [|k ks Hk Hnd IH]; [by apply elem_of_nil in Hin|].
  simpl. apply elem_of_cons in Hin as [<-|Hin].
  - rewrite H0, (sum_unchanged ks f g).
    + ring.
    + intros k Hin. apply Hne. by intros ->.
  - rewrite IH, Hne by (done || by intros ->). ring.
Qed.

(** The sums of the groups add up to the sum over the records that have a
    key. *)
Lemma sum_over_groups (ks : list K) keys (vals : list (option Q)) :
  NoDup ks → (∀ k, Some k ∈ keys → k ∈ ks) →
  (foldr Qplus 0 (map (λ k, sum_skipna (group_of k keys vals)) ks)
   == sum_skipna (with_key keys vals))%Q.
Proof.
  intros Hnd. revert vals.
  induction keys as [|o keys IH]; intros vals Hks.
  - unfold with_key, group_of; simpl.
    induction ks as [|k ks IHks]; simpl; [reflexivity|].
    apply NoDup_cons in Hnd as [_ Hnd].
    rewrite IHks by (done || intros ? Hin; by apply elem_of_nil in Hin).
    unfold sum_skipna; simpl. ring.
  - destruct vals as [|v vals].
    + unfold with_key; simpl.
      rewrite (sum_unchanged ks (λ _, 0%Q)).
      * clear. induction ks as [|k ks IHks]; simpl; [reflexivity|].
        rewrite IHks. unfold sum_skipna; simpl. ring.
      * intros k _. by rewrite group_of_nil_r.
    + assert (∀ k, Some k ∈ keys → k ∈ ks) as Hks'.
      { intros k Hin. apply Hks. by right. }
      specialize (IH vals Hks').
      destruct o as [k0|].
      * assert (with_key (Some k0 :: keys) (v :: vals) = v :: with_key keys vals) as ->.
        { rewrite with_key_cons, decide_True; eauto. }
        rewrite sum_skipna_cons.
        destruct v as [q|].
        -- rewrite <- IH. apply (sum_add_once ks k0).
           ++ done.
           ++ apply Hks. left.
           ++ rewrite group_of_cons, decide_True by done.
              by rewrite sum_skipna_cons.
           ++ intros k Hne. rewrite group_of_cons, decide_False by congruence.
              reflexivity.
        -- rewrite <- IH. apply sum_unchanged. intros k _.
           rewrite group_of_cons. destruct (decide (Some k0 = Some k)); reflexivity.
      * assert (with_key (None :: keys) (v :: vals) = with_key keys vals) as ->.
        { rewrite with_key_cons, decide_False; [done|]. by intros [? ?]. }
        rewrite <- IH. apply sum_unchanged. intros k _.
        rewrite group_of_cons, decide_False by done. reflexivity.
Qed.

Lemma groupby_sum_total keys (vals : list (option Q)) :
  (total_of (groupby_agg leb sum_skipna keys vals) == sum_skipna (with_key keys vals))%Q.
Proof.
  unfold total_of, groupby_agg. rewrite <- list_fmap_compose.
  apply (sum_over_groups (group_keys leb keys)).
  - apply group_keys_NoDup.
  - intros k. apply group_keys_elem.
Qed.

Lemma with_key_all keys {B} (vals : list B) :
  Forall is_Some keys → (length vals ≤ length keys)%nat → with_key keys vals = vals.
Proof.
  unfold with_key. intros Hall. revert vals.
  induction Hall as [|o keys Ho Hall IH]; intros vals Hlen.
  - destruct vals; simpl in *; [done|lia].
  - destruct vals as [|v vals]; [done|]. simpl in Hlen.
    fold (with_key (o :: keys) (v :: vals)).
    rewrite with_key_cons, decide_True by done.
    unfold with_key. rewrite IH by lia. done.
Qed.
End GroupByFacts.

(** ** Aggregation completeness *)




(** ** Records without a key *)

Lemma zip_with_delete {A B C} (f : A → B → C) (l : list A) (k : list B) (i : nat) :
  zip_with f (delete i l) (delete i k) = delete i (zip_with f l k).
Proof.
  revert l k. induction i as [|i IH]; intros [|a l] [|b k]; simpl; try done.
  - by destruct l.
  - by rewrite IH.
Qed.

Lemma delete_nil {A} (i : nat) : delete i (@nil A) = [].
Proof. by destruct i. Qed.

Lemma delete_cons_0 {A} (x : A) (l : list A) : delete 0%nat (x :: l) = l.
Proof. done. Qed.

Lemma delete_cons_S {A} (i : nat) (x : A) (l : list A) :
  delete (S i) (x :: l) = x :: delete i l.
Proof. done. Qed.

Section MissingKeyFacts.
Context {K : Type} `{!EqDecision K} (leb : K → K → bool).
Implicit Types (keys : list (option K)) (k : K).

Lemma omap_delete_missing keys i :
  keys !! i = Some None → omap id (delete i keys) = omap id keys.
Proof.
  revert keys. induction i as [|i IH]; intros [|o keys] Hi; simpl in Hi; try done.
  - by injection Hi as ->.
  - rewrite ?delete_nil, ?delete_cons_0, ?delete_cons_S. simpl. by rewrite IH.
Qed.

Lemma group_of_delete_missing {B} k keys (vals : list B) i :
  keys !! i = Some None → group_of k (delete i keys) (delete i vals) = group_of k keys vals.
Proof.
  revert keys vals. induction i as [|i IH]; intros [|o keys] vals Hi;
    simpl in Hi; try done.
  - injection Hi as ->. destruct vals as [|v vals].
    + rewrite ?delete_nil, ?delete_cons_0, ?delete_cons_S. by rewrite !group_of_nil_r.
    + rewrite ?delete_nil, ?delete_cons_0, ?delete_cons_S. by rewrite group_of_cons, decide_False.
  - destruct vals as [|v vals].
    + rewrite ?delete_nil, ?delete_cons_0, ?delete_cons_S. by rewrite !group_of_nil_r.
    + rewrite ?delete_nil, ?delete_cons_0, ?delete_cons_S. by rewrite !group_of_cons, IH.
Qed.

Lemma groupby_agg_delete_missing {B C} (f : list B → C) keys (vals : list B) i :
  keys !! i = Some None →
  groupby_agg leb f (delete i keys) (delete i vals) = groupby_agg leb f keys vals.
Proof.
  intros Hi. unfold groupby_agg, group_keys.
  rewrite omap_delete_missing by done.
  apply map_ext. intros k. by rewrite group_of_delete_missing.
Qed.

Lemma groupby_agg_get {B C} (f : list B → C) keys (vals : list B) k :
  Some k ∈ keys →
  dict_get (groupby_agg leb f keys vals) k = Some (f (group_of k keys vals)).
Proof.
  intros Hin. apply (group_keys_elem leb) in Hin. unfold groupby_agg.
  induction (group_keys leb keys) as [|k' ks IH]; [by apply elem_of_nil in Hin|].
  simpl. destruct (decide (k' = k)) as [->|Hne]; [done|].
  apply IH. apply elem_of_cons in Hin as [?|?]; [congruence|done].
Qed.

Lemma group_sum_delete k keys (vals : list (option Q)) i a :
  keys !! i = Some (Some k) → vals !! i = Some (Some a) →
  (sum_skipna (group_of k keys vals)
   == a + sum_skipna (group_of k (delete i keys) (delete i vals)))%Q.
Proof.
  revert keys vals. induction i as [|i IH]; intros [|o keys] [|v vals] Hk Hv;
    simpl in Hk, Hv; try done; rewrite ?delete_nil, ?delete_cons_0, ?delete_cons_S.
  - injection Hk as ->. injection Hv as ->.
    rewrite group_of_cons, decide_True by done. by rewrite sum_skipna_cons.
  - rewrite !group_of_cons. destruct (decide (o = Some k)); [|by apply IH].
    rewrite !sum_skipna_cons. destruct v as [q|]; [|by apply IH].
    rewrite (IH keys vals) by done. ring.
Qed.
End MissingKeyFacts.

Lemma sum_skipna_delete (l : list (option Q)) (i : nat) (a : Q) :
  l !! i = Some (Some a) → (sum_skipna l == a + sum_skipna (delete i l))%Q.
Proof.
  revert l. induction i as [|i IH]; intros [|v l] Hi; simpl in Hi; try done;
    rewrite ?delete_nil, ?delete_cons_0, ?delete_cons_S.
  - injection Hi as ->. by rewrite sum_skipna_cons.
  - rewrite !sum_skipna_cons. destruct v as [q|]; [|by apply IH].
    rewrite (IH l) by done. ring.
Qed.

Lemma transform_min_missing (keys : list (option Z)) (vals : list (option nat)) i :
  keys !! i = Some None → transform_min keys vals !! i = Some None.
Proof. intros Hi. unfold transform_min. by rewrite list_lookup_fmap, Hi. Qed.

Lemma cohort_columns_missing (df : DataFrame) (i : nat) (r : row) :
  rows df !! i = Some r → Receiver_ID r = None →
  col Receiver_ID df !! i = Some None ∧
  CohortQuarterID_of df !! i = Some None ∧
  CohortIndex_of df !! i = Some None ∧
  zip_with pair_key (CohortQuarterID_of df) (CohortIndex_of df) !! i = Some None.
Proof.
  intros Hi Hr.
  assert (col Receiver_ID df !! i = Some None) as Hrid.
  { unfold col. by rewrite list_lookup_fmap, Hi, <- Hr. }
  assert (CohortQuarterID_of df !! i = Some None) as Hc.
  { by apply transform_min_missing. }
  destruct (InvoiceQuarterID_lookup df i r Hi) as (b & Hb & _).
  assert (CohortIndex_of df !! i = Some None) as Ho.
  { unfold CohortIndex_of. apply lookup_zip_with_Some. by exists (Some b), None. }
  split_and!; try done.
  apply lookup_zip_with_Some. by exists None, None.
Qed.

Lemma col_delete {B} (f : row → B) (df : DataFrame) (i : nat) :
  col f (loaded (delete i (rows df))) = delete i (col f df).
Proof. unfold col. simpl. apply list_fmap_delete. Qed.




(** ** Top and bottom lists *)

Lemma NoDup_fmap_eq {A B} (f : A → B) (l : list A) (x y : A) :
  NoDup (f <$> l) → x ∈ l → y ∈ l → f x = f y → x = y.
Proof.
  intros Hnd Hx Hy Hf.
  apply list_elem_of_lookup in Hx as [i Hi]. apply list_elem_of_lookup in Hy as [j Hj].
  assert (i = j) as ->; [|congruence].
  eapply NoDup_lookup; [exact Hnd| |].
  - by rewrite list_lookup_fmap, Hi.
  - by rewrite list_lookup_fmap, Hj, Hf.
Qed.

Lemma values_distinct_ne {A} (val : A → Q) (l : list A) (x y : A) :
  values_distinct val l → x ∈ l → y ∈ l → x ≠ y → ¬ (val x == val y)%Q.
Proof.
  intros Hd Hx Hy Hne Heq.
  apply list_elem_of_lookup in Hx as [i Hi]. apply list_elem_of_lookup in Hy as [j Hj].
  assert (i = j) as -> by (by eapply Hd). congruence.
Qed.

Lemma values_distinctb_sound {A} (val : A → Q) (l : list A) :
  values_distinctb (val <$> l) = true → values_distinct val l.
Proof.
  induction l as [|a l IH]; simpl.
  - by intros _ i j x y Hi.
  - intros [Hall Hrest]%andb_prop. specialize (IH Hrest).
    assert (∀ z, z ∈ l → ¬ (val a == val z)%Q) as Ha.
    { intros z Hz Heq. rewrite forallb_forall in Hall.
      specialize (Hall (val z)). rewrite <- list_elem_of_In in Hall.
      specialize (Hall (list_elem_of_fmap_2 val l z Hz)).
      apply Qeq_bool_iff in Heq. by rewrite Heq in Hall. }
    intros [|i] [|j] x y Hi Hj Heq; simpl in Hi, Hj.
    + done.
    + injection Hi as <-. exfalso. eapply Ha; [|exact Heq].
      by eapply list_elem_of_lookup_2.
    + injection Hj as <-. exfalso. eapply Ha; [|symmetry; exact Heq].
      by eapply list_elem_of_lookup_2.
    + f_equal. by eapply IH.
Qed.

Section TopBottom.
Context {A K : Type} `{!EqDecision A} (key : A → K) (val : A → Q).

(** With no two values equal and at least [2 n] rows, the [n] largest and
    the [n] smallest rows have no key in common. *)
Lemma nlargest_nsmallest_disjoint (n : nat) (l : list A) (x y : A) :
  NoDup (key <$> l) → values_distinct val l → (2 * n ≤ length l)%nat →
  x ∈ nlargest val n l → y ∈ nsmallest val n l → key x ≠ key y.
Proof.
  intros Hkeys Hdist Hlen Hx Hy Hxy.
  unfold nlargest, nsmallest in *.
  set (D := stable_sort (λ a b, Qle_bool (val b) (val a)) l) in *.
  set (U := stable_sort (λ a b, Qle_bool (val a) (val b)) l) in *.
  assert (NoDup l) as Hnd by (by eapply NoDup_fmap_1).
  assert (∀ z, z ∈ D ↔ z ∈ l) as HD by (intros z; apply stable_sort_elem).
  assert (∀ z, z ∈ U ↔ z ∈ l) as HU by (intros z; apply stable_sort_elem).
  assert (NoDup U) as HndU by (by apply stable_sort_NoDup).
  assert (length U = length l) as HlenU by apply stable_sort_length.
  assert (StronglySorted (λ a b, Qle_bool (val b) (val a) = true) D) as HsD.
  { apply stable_sort_sorted.
    - intros a b. apply Qle_bool_total.
    - intros a b c H1 H2. by eapply Qle_bool_trans. }
  assert (StronglySorted (λ a b, Qle_bool (val a) (val b) = true) U) as HsU.
  { apply stable_sort_sorted.
    - intros a b. apply Qle_bool_total.
    - intros a b c. apply Qle_bool_trans. }
  assert (x = y) as <-.
  { apply (NoDup_fmap_eq key l); [done| | |done].
    - apply HD. by eapply subseteq_take.
    - apply HU. by eapply subseteq_take. }
  assert (∀ z, z ∈ drop n U → z ∈ take n D ∧ z ≠ x) as Hsub.
  { intros z Hz.
    assert (z ≠ x) as Hne.
    { intros ->. rewrite <- (take_drop n U) in HndU.
      apply NoDup_app in HndU as (_ & Hdisj & _). by eapply Hdisj. }
    split; [|done].
    assert (z ∈ D) as HzD.
    { apply HD, HU. rewrite <- (take_drop n U). apply elem_of_app. by right. }
    rewrite <- (take_drop n D) in HzD. apply elem_of_app in HzD as [?|HzD]; [done|].
    exfalso.
    pose proof (StronglySorted_take_drop _ D n x z HsD Hx HzD) as H1.
    pose proof (StronglySorted_take_drop _ U n x z HsU Hy Hz) as H2.
    simpl in H1, H2. apply Qle_bool_iff in H1, H2.
    eapply (values_distinct_ne val l x z); try done.
    - apply HD. by eapply subseteq_take.
    - apply HU. rewrite <- (take_drop n U). apply elem_of_app. by right.
    - by apply Qle_antisym. }
  assert (length (x :: drop n U) ≤ length (take n D))%nat as Hle.
  { apply submseteq_length, NoDup_submseteq.
    - constructor.
      + intros Hin. by apply Hsub in Hin as [_ ?].
      + rewrite <- (take_drop n U) in HndU. by apply NoDup_app in HndU as (_ & _ & ?).
    - intros z [->|Hz]%elem_of_cons; [done|]. by apply Hsub. }
  simpl in Hle. rewrite length_drop, length_take in Hle. lia.
Qed.
End TopBottom.


Lemma grouped_keys_NoDup {C} (f : list (option Q) → C) (keys : list (option string))
    (vals : list (option Q)) :
  NoDup (fst <$> groupby_agg String.leb f keys vals).
Proof. rewrite groupby_agg_keys. apply group_keys_NoDup. Qed.

Lemma grouped_length {B C} (f : list B → C) (keys : list (option string)) (vals : list B) :
  length (groupby_agg String.leb f keys vals) = distinct_count keys.
Proof.
  unfold groupby_agg. rewrite length_map. apply group_keys_length.
Qed.



(** ** The retention table *)

Lemma pair_key_Some (a : option nat) (b : option Z) (c : nat) (o : Z) :
  pair_key a b = Some (c, o) ↔ a = Some c ∧ b = Some o.
Proof.
  destruct a as [x|], b as [y|]; simpl; split; try done;
    try (by intros [? ?]); [by intros [= -> ->] | by intros [[= ->] [= ->]]].
Qed.

(** Every group of the cohort grouping comes from a record of a customer. *)
Lemma cohort_key_origin (df : DataFrame) (c : nat) (o : Z) :
  Some (c, o) ∈ cohort_keys df →
  ∃ i r cust, rows df !! i = Some r ∧ Receiver_ID r = Some cust ∧
              CohortQuarterID_of df !! i = Some (Some c) ∧
              CohortIndex_of df !! i = Some (Some o) ∧ 0 ≤ o.
Proof.
  intros Hin. apply list_elem_of_lookup in Hin as [i Hi].
  apply lookup_zip_with_Some in Hi as (a & b & Hk & Ha & Hb).
  symmetry in Hk. apply pair_key_Some in Hk as [-> ->].
  assert (is_Some (rows df !! i)) as [r Hr].
  { apply lookup_lt_is_Some. apply lookup_lt_Some in Ha.
    unfold CohortQuarterID_of, transform_min, col in Ha.
    by rewrite !length_map in Ha. }
  destruct (Receiver_ID r) as [cust|] eqn:Hc.
  - exists i, r, cust.
    destruct (cohort_columns_lookup df i r cust Hr Hc)
      as (b' & m & _ & Hm & _ & Hle & Ho).
    rewrite Ho in Hb. injection Hb as <-. split_and!; try done. lia.
  - destruct (cohort_columns_missing df i r Hr Hc) as (_ & Hnone & _). congruence.
Qed.

(** The cohort bucket of a customer is the bucket of one of their records,
    and that record has offset 0. *)
Lemma cohort_has_offset_zero (df : DataFrame) (i : nat) (r : row) (cust : Z) (c : nat) :
  rows df !! i = Some r → Receiver_ID r = Some cust →
  CohortQuarterID_of df !! i = Some (Some c) →
  ∃ j, col Receiver_ID df !! j = Some (Some cust) ∧ cohort_keys df !! j = Some (Some (c, 0)).
Proof.
  intros Hr Hc Hcq.
  destruct (cohort_columns_lookup df i r cust Hr Hc) as (b & m & _ & Hm & Hmin & _).
  assert (m = c) as -> by congruence.
  destruct Hmin as [Hin _]. unfold customer_buckets in Hin.
  apply list_elem_of_omap in Hin as (ob & Hin & Hob). simpl in Hob. subst ob.
  apply elem_of_group_of in Hin as (j & Hj & Hb).
  exists j. split; [done|].
  assert (CohortQuarterID_of df !! j = Some (Some c)) as Hcj.
  { unfold CohortQuarterID_of, transform_min in *.
    rewrite list_lookup_fmap, Hj. simpl.
    assert (col Receiver_ID df !! i = Some (Some cust)) as Hi.
    { unfold col. by rewrite list_lookup_fmap, Hr, <- Hc. }
    rewrite list_lookup_fmap, Hi in Hcq. simpl in Hcq. done. }
  unfold cohort_keys. apply lookup_zip_with_Some.
  exists (Some c), (Some 0). split_and!; try done.
  unfold CohortIndex_of. apply lookup_zip_with_Some.
  exists (Some c), (Some c). split_and!; try done. simpl. f_equal. lia.
Qed.

Lemma nunique_pos (l : list (option Z)) (x : Z) : Some x ∈ l → (0 < nunique l)%nat.
Proof.
  intros Hin. unfold nunique.
  assert (x ∈ unique (omap id l)) as Hx.
  { apply unique_elem, list_elem_of_omap. by exists (Some x). }
  destruct (unique (omap id l)); [by apply elem_of_nil in Hx|simpl; lia].
Qed.

Lemma cohort_counts_elem (df : DataFrame) (e : nat * Z * nat) :
  e ∈ cohort_counts (CohortQuarterID_of df) (CohortIndex_of df) (col Receiver_ID df) ↔
  Some e.1 ∈ cohort_keys df ∧
  e.2 = nunique (group_of e.1 (cohort_keys df) (col Receiver_ID df)).
Proof. apply groupby_agg_elem. Qed.

(** Every cohort of the grouped counts has a cell at offset 0, with at
    least one customer. *)
Lemma cohort_counts_offset_zero (df : DataFrame) (c : nat) (o : Z) (n : nat) :
  (c, o, n) ∈ cohort_counts (CohortQuarterID_of df) (CohortIndex_of df) (col Receiver_ID df) →
  0 ≤ o ∧
  ∃ n0, (0 < n0)%nat ∧
        (c, 0, n0) ∈ cohort_counts (CohortQuarterID_of df) (CohortIndex_of df)
                                   (col Receiver_ID df).
Proof.
  intros [Hkey _]%cohort_counts_elem. simpl in Hkey.
  destruct (cohort_key_origin df c o Hkey) as (i & r & cust & Hr & Hc & Hcq & _ & Ho).
  split; [done|].
  destruct (cohort_has_offset_zero df i r cust c Hr Hc Hcq) as (j & Hj & Hkj).
  exists (nunique (group_of (c, 0) (cohort_keys df) (col Receiver_ID df))). split.
  - apply (nunique_pos _ cust). apply elem_of_group_of. by exists j.
  - apply cohort_counts_elem. split; [|done]. simpl. by eapply list_elem_of_lookup_2.
Qed.

Lemma filter_key_absent {K V} `{!EqDecision K} (t : list (K * V)) (k : K) :
  k ∉ t.*1 → filter (λ e, e.1 = k) t = [].
Proof.
  induction t as [|[k' v] t IH]; [done|]. rewrite fmap_cons, not_elem_of_cons.
  intros [Hne Hk]. rewrite filter_cons_False by (intros Heq; by apply Hne).
  by apply IH.
Qed.

Lemma filter_key_unique {K V} `{!EqDecision K} (t : list (K * V)) (k : K) (v : V) :
  NoDup t.*1 → (k, v) ∈ t → filter (λ e, e.1 = k) t = [(k, v)].
Proof.
  induction t as [|[k' v'] t IH]; [by intros _ ?%elem_of_nil|].
  rewrite fmap_cons, NoDup_cons. intros [Hk' Hnd] Hin. simpl in Hk'.
  apply elem_of_cons in Hin as [[= <- <-]|Hin].
  - rewrite filter_cons_True by done. by rewrite filter_key_absent.
  - assert (k' ≠ k) as Hne.
    { intros ->. apply Hk'. apply list_elem_of_fmap. by exists (k, v). }
    rewrite filter_cons_False by done. by apply IH.
Qed.

Lemma sorted_head_zero (l : list Z) :
  StronglySorted (λ a b, Z.leb a b = true) l → 0 ∈ l → (∀ x, x ∈ l → 0 ≤ x) →
  ∃ l', l = 0 :: l'.
Proof.
  intros Hs Hin Hpos. destruct l as [|a l]; [by apply elem_of_nil in Hin|].
  exists l. f_equal. apply StronglySorted_inv in Hs as [_ Hall].
  assert (0 ≤ a) by (apply Hpos; left).
  apply elem_of_cons in Hin as [->|Hin]; [done|].
  eapply Forall_forall in Hall; [|exact Hin]. apply Z.leb_le in Hall. lia.
Qed.

Lemma zip_with_fmap_same {A B C} (g : A → B → C) (f : A → B) (l : list A) :
  zip_with g l (f <$> l) = (λ x, g x (f x)) <$> l.
Proof. induction l as [|x l IH]; [done|]. rewrite !fmap_cons. simpl. by f_equal. Qed.

Lemma rint_comp (q q' : Q) : (q == q')%Q → rint q = rint q'.
Proof.
  intros H. unfold rint. rewrite (Qfloor_comp _ _ H).
  assert ((q - inject_Z (Qfloor q') ?= 1 # 2)%Q
          = (q' - inject_Z (Qfloor q') ?= 1 # 2)%Q) as ->; [|done].
  apply Qcompare_comp; [by rewrite H|reflexivity].
Qed.

(** A cell divided by itself, in percent, rounded. *)
Lemma percent_of_itself (v : Q) :
  ¬ (v == 0)%Q → (round2 (v / v * 100) == 100)%Q.
Proof.
  intros Hv. unfold round2.
  assert (v / v * 100 * 100 == 10000)%Q as H.
  { unfold Qdiv. rewrite Qmult_inv_r by done. reflexivity. }
  rewrite (rint_comp _ _ H). reflexivity.
Qed.

Section PivotFacts.
Variable t : list (nat * Z * nat).
Hypothesis keys_NoDup : NoDup t.*1.
Hypothesis offsets : ∀ c o n, (c, o, n) ∈ t →
  0 ≤ o ∧ ∃ n0, (0 < n0)%nat ∧ (c, 0, n0) ∈ t.

Lemma pivot_columns :
  t ≠ [] → ∃ cols, f_columns (pivot_table t) = 0 :: cols.
Proof.
  intros Hne. simpl. apply sorted_head_zero.
  - apply stable_sort_sorted.
    + intros x y Hxy. apply Z.leb_le. apply Z.leb_gt in Hxy. lia.
    + intros x y z Hxy Hyz. apply Z.leb_le. apply Z.leb_le in Hxy, Hyz. lia.
  - destruct t as [|[[c o] n] t'] eqn:Ht; [done|].
    destruct (offsets c o n) as (_ & n0 & _ & Hin); [left|].
    rewrite stable_sort_elem, unique_elem.
    apply list_elem_of_fmap. exists (c, 0). split; [done|].
    apply list_elem_of_fmap. by exists (c, 0, n0).
  - intros x Hx. rewrite stable_sort_elem, unique_elem in Hx.
    apply list_elem_of_fmap in Hx as ([c o] & -> & Hx).
    apply list_elem_of_fmap in Hx as ([[c' o'] n] & [= <- <-] & Hx).
    by apply offsets in Hx as [? _].
Qed.

Lemma pivot_first_cells (cells : list (option Q)) :
  cells ∈ f_values (pivot_table t) →
  ∃ n0 : nat, (0 < n0)%nat ∧
    head cells = Some (Some ((inject_Z (Z.of_nat n0) + 0) / inject_Z 1)%Q).
Proof.
  intros Hin. assert (t ≠ []) as Hne.
  { intros Ht. rewrite Ht in Hin. simpl in Hin. by apply elem_of_nil in Hin. }
  destruct (pivot_columns Hne) as [cols Hcols]. simpl in Hin, Hcols.
  rewrite Hcols in Hin.
  apply list_elem_of_fmap in Hin as (c & -> & Hc).
  rewrite stable_sort_elem, unique_elem in Hc.
  apply list_elem_of_fmap in Hc as (k & -> & Hk).
  apply list_elem_of_fmap in Hk as (e & -> & He).
  destruct e as [[c o] n].
  destruct (offsets c o n He) as (_ & n0 & Hpos & Hin0).
  exists n0. split; [done|]. simpl.
  by rewrite (filter_key_unique t (c, 0) n0).
Qed.
End PivotFacts.

Lemma mean_singleton_nonzero (n0 : nat) :
  (0 < n0)%nat → ¬ ((inject_Z (Z.of_nat n0) + 0) / inject_Z 1 == 0)%Q.
Proof.
  intros Hpos Heq.
  assert ((inject_Z (Z.of_nat n0) + 0) / inject_Z 1 == inject_Z (Z.of_nat n0))%Q as H.
  { unfold Qdiv. change (/ inject_Z 1)%Q with 1%Q. ring. }
  rewrite H in Heq. unfold Qeq in Heq. simpl in Heq. lia.
Qed.

Lemma percent_divide_rows_elem (values : list (list (option Q))) (cells : list (option Q)) :
  cells ∈ percent (divide_rows values (map (λ c, mjoin (head c)) values)) →
  ∃ cells0, cells0 ∈ values ∧
    cells = map (fmap (λ q, round2 (q * 100)%Q))
                (map (λ c, nan_div c (mjoin (head cells0))) cells0).
Proof.
  induction values as [|row values IH]; simpl.
  - by intros ?%elem_of_nil.
  - intros [->|Hin]%elem_of_cons.
    + exists row. split; [left|done].
    + destruct (IH Hin) as (cells0 & ? & ?). exists cells0. split; [by right|done].
Qed.

Lemma retention_of_first_column (quarters_map : dict string nat)
    (cohort_id : list (option nat)) (cohort_index : list (option Z))
    (receiver : list (option Z)) :
  let t := cohort_counts cohort_id cohort_index receiver in
  (∀ c o n, (c, o, n) ∈ t → 0 ≤ o ∧ ∃ n0, (0 < n0)%nat ∧ (c, 0, n0) ∈ t) →
  match retention_of quarters_map cohort_id cohort_index receiver with
  | Some f =>
      (∃ cols, f_columns f = 0 :: cols) ∧
      length (f_index f) = length (f_values f) ∧
      (∀ cells, cells ∈ f_values f →
         ∃ v, cells !! 0%nat = Some (Some v) ∧ (v == 100)%Q)
  | None => t = []
  end.
Proof.
  intros t Hoff.
  assert (NoDup t.*1) as Hnd.
  { subst t. unfold cohort_counts. rewrite groupby_agg_keys. apply group_keys_NoDup. }
  unfold retention_of. fold t. unfold iloc_first_column. simpl f_columns.
  destruct (decide (t = [])) as [Ht|Hne].
  { rewrite Ht. done. }
  destruct (pivot_columns t Hnd Hoff Hne) as [cols Hcols].
  pose proof (pivot_first_cells t Hnd Hoff) as Hcells.
  change (f_columns (pivot_table t)) with (stable_sort Z.leb (unique t.*1.*2)) in Hcols.
  rewrite Hcols. cbn [mbind option_bind f_columns f_index f_values]. split_and!.
  - by exists cols.
  - unfold percent, divide_rows, series_map.
    rewrite !length_reverse, !length_map, length_zip_with, !length_map.
    unfold pivot_table. cbn [f_index f_values]. rewrite !length_map. lia.
  - intros cells Hin. rewrite elem_of_reverse in Hin.
    apply percent_divide_rows_elem in Hin as (cells0 & Hin & ->).
    destruct (Hcells cells0 Hin) as (n0 & Hpos & Hhead).
    destruct cells0 as [|c0 rest]; [done|]. simpl in Hhead.
    injection Hhead as ->. simpl.
    eexists. split; [done|].
    apply percent_of_itself. by apply mean_singleton_nonzero.
Qed.

Lemma cohort_counts_empty (df : DataFrame) :
  cohort_counts (CohortQuarterID_of df) (CohortIndex_of df) (col Receiver_ID df) = [] →
  ∀ r, r ∈ rows df → Receiver_ID r = None.
Proof.
  intros Hempty r Hr. destruct (Receiver_ID r) as [c|] eqn:Hc; [|done]. exfalso.
  apply list_elem_of_lookup in Hr as [i Hi].
  destruct (cohort_columns_lookup df i r c Hi Hc) as (b & m & _ & Hm & _ & _ & Ho).
  assert (Some (m, Z.of_nat b - Z.of_nat m) ∈ cohort_keys df) as Hkey.
  { apply list_elem_of_lookup. exists i. unfold cohort_keys.
    apply lookup_zip_with_Some.
    exists (Some m), (Some (Z.of_nat b - Z.of_nat m)). by split_and!. }
  assert ((m, Z.of_nat b - Z.of_nat m,
           nunique (group_of (m, Z.of_nat b - Z.of_nat m) (cohort_keys df)
                             (col Receiver_ID df)))
          ∈ cohort_counts (CohortQuarterID_of df) (CohortIndex_of df)
                          (col Receiver_ID df)) as Hin.
  { by apply cohort_counts_elem. }
  rewrite Hempty in Hin. by apply elem_of_nil in Hin.
Qed.


(** ** Cohort labels *)

Lemma inverse_map_zip (keys : list string) :
  inverse_map (quarters_map_of keys)
  = zip (seq 0 (length (unique keys))) (unique keys).
Proof.
  unfold inverse_map, dict_values, dict_keys. rewrite quarters_map_of_zip.
  rewrite snd_zip, fst_zip by (rewrite length_seq; lia).
  apply dict_of_NoDup. rewrite fst_zip by (rewrite length_seq; lia).
  apply NoDup_seq.
Qed.

(** X1: the dictionary built from the values and keys of the bucket
    mapping is its inverse. *)
Theorem inverse_map_round_trip (df : DataFrame) (key : string) (i : nat) :
  let quarters_map := quarters_map_of (quarter_column df) in
  dict_get (inverse_map quarters_map) i = Some key ↔ dict_get quarters_map key = Some i.
Proof.
  simpl. rewrite inverse_map_zip, quarters_map_get.
  rewrite dict_get_zip by (apply NoDup_seq || by rewrite length_seq).
  split.
  - intros (j & Hj & Hk). apply lookup_seq in Hj as [-> _]. done.
  - intros Hi. exists i. split; [|done]. apply lookup_seq.
    split; [done|]. by eapply lookup_lt_Some.
Qed.

(** X2: the cohort is a property of the customer: two records of the same
    customer get the same cohort bucket and the same cohort label, and the
    label is the quarter key of one of that customer's own records. *)
Theorem cohort_is_per_customer (df : DataFrame) (i j : nat) (ri rj : row) (c : Z) :
  rows df !! i = Some ri → rows df !! j = Some rj →
  Receiver_ID ri = Some c → Receiver_ID rj = Some c →
  CohortQuarter (analyze_cohort_retention df).1 = Some (CohortQuarter_of df) ∧
  CohortQuarterID_of df !! i = CohortQuarterID_of df !! j ∧
  ∃ (label : string) (k : nat) (rk : row),
    CohortQuarter_of df !! i = Some (Some label) ∧
    CohortQuarter_of df !! j = Some (Some label) ∧
    rows df !! k = Some rk ∧ Receiver_ID rk = Some c ∧
    quarter_key (InvoiceDate rk) = label.
Proof.
  intros Hi Hj Hci Hcj.
  destruct (cohort_columns_lookup df i ri c Hi Hci) as (bi & m & _ & Hmi & Hmin & _).
  assert (col Receiver_ID df !! i = Some (Some c)) as Hri.
  { unfold col. by rewrite list_lookup_fmap, Hi, <- Hci. }
  assert (col Receiver_ID df !! j = Some (Some c)) as Hrj.
  { unfold col. by rewrite list_lookup_fmap, Hj, <- Hcj. }
  assert (CohortQuarterID_of df !! j = Some (Some m)) as Hmj.
  { unfold CohortQuarterID_of, transform_min in *.
    rewrite list_lookup_fmap, Hri in Hmi. by rewrite list_lookup_fmap, Hrj. }
  split_and!; [done|congruence|].
  destruct Hmin as [Hin _]. unfold customer_buckets in Hin.
  apply list_elem_of_omap in Hin as (ob & Hin & Hob). simpl in Hob. subst ob.
  apply elem_of_group_of in Hin as (k & Hk & Hbk).
  assert (is_Some (rows df !! k)) as [rk Hrk].
  { apply lookup_lt_is_Some. apply lookup_lt_Some in Hk.
    unfold col in Hk. by rewrite length_map in Hk. }
  destruct (InvoiceQuarterID_lookup df k rk Hrk) as (b & Hb & Hget).
  assert (b = m) as -> by congruence.
  apply (inverse_map_round_trip df) in Hget.
  exists (quarter_key (InvoiceDate rk)), k, rk. split_and!; try done.
  - unfold CohortQuarter_of, series_map. rewrite list_lookup_fmap, Hmi.
    simpl. by rewrite Hget.
  - unfold CohortQuarter_of, series_map. rewrite list_lookup_fmap, Hmj.
    simpl. by rewrite Hget.
  - unfold col in Hk. rewrite list_lookup_fmap, Hrk in Hk. simpl in Hk. congruence.
Qed.

Lemma cohort_is_per_customer_witness :
  CohortQuarterID_of three_customers !! 0%nat = CohortQuarterID_of three_customers !! 3%nat.
Proof.
  apply (cohort_is_per_customer three_customers 0 3
           (record_of (Some 1) 1 2010 (Some "United Kingdom"%string) 2)
           (record_of (Some 1) 5 2010 (Some "United Kingdom"%string) 7) 1
           eq_refl eq_refl eq_refl eq_refl).
Defined.

(** ** Counts of the cohort grouping *)

Lemma nunique_mono (l1 l2 : list (option Z)) :
  (∀ x, Some x ∈ l1 → Some x ∈ l2) → (nunique l1 ≤ nunique l2)%nat.
Proof.
  intros Hsub. unfold nunique.
  apply submseteq_length, NoDup_submseteq; [apply unique_NoDup|].
  intros x. rewrite !unique_elem, !list_elem_of_omap.
  intros (o & Ho & Hx). simpl in Hx. subst o.
  exists (Some x). split; [by apply Hsub|done].
Qed.

Lemma cohort_key_lookup (df : DataFrame) (i : nat) (c : nat) (o : Z) (x : Z) :
  cohort_keys df !! i = Some (Some (c, o)) →
  col Receiver_ID df !! i = Some (Some x) →
  ∃ r, rows df !! i = Some r ∧ Receiver_ID r = Some x ∧
       CohortQuarterID_of df !! i = Some (Some c).
Proof.
  intros Hk Hx. unfold col in Hx. rewrite list_lookup_fmap in Hx.
  destruct (rows df !! i) as [r|] eqn:Hr; [|done]. simpl in Hx.
  exists r. split_and!; [done|congruence|].
  apply lookup_zip_with_Some in Hk as (a & b & Hp & Ha & _).
  symmetry in Hp. apply pair_key_Some in Hp as [-> _]. done.
Qed.

Lemma cohort_counts_le_offset_zero (df : DataFrame) (c : nat) (o : Z) (n : nat) :
  (c, o, n) ∈ cohort_counts (CohortQuarterID_of df) (CohortIndex_of df)
                            (col Receiver_ID df) →
  (0 < n)%nat ∧
  ∃ n0, (c, 0, n0) ∈ cohort_counts (CohortQuarterID_of df) (CohortIndex_of df)
                                   (col Receiver_ID df) ∧
        (n ≤ n0)%nat.
Proof.
  intros Hin. pose proof Hin as [Hkey Hn]%cohort_counts_elem. simpl in Hkey, Hn.
  destruct (cohort_key_origin df c o Hkey) as (i & r & cust & Hr & Hc & Hcq & Hci & _).
  assert (cohort_keys df !! i = Some (Some (c, o))) as Hki.
  { unfold cohort_keys. apply lookup_zip_with_Some.
    exists (Some c), (Some o). by split_and!. }
  assert (col Receiver_ID df !! i = Some (Some cust)) as Hri.
  { unfold col. by rewrite list_lookup_fmap, Hr, <- Hc. }
  split.
  - rewrite Hn. apply (nunique_pos _ cust). apply elem_of_group_of. by exists i.
  - destruct (cohort_has_offset_zero df i r cust c Hr Hc Hcq) as (j & Hj & Hkj).
    exists (nunique (group_of (c, 0) (cohort_keys df) (col Receiver_ID df))). split.
    + apply cohort_counts_elem. split; [|done]. simpl.
      by eapply list_elem_of_lookup_2.
    + rewrite Hn. apply nunique_mono. intros x Hx.
      apply elem_of_group_of in Hx as (i' & Hk' & Hx').
      destruct (cohort_key_lookup df i' c o x Hk' Hx') as (r' & Hr' & Hc' & Hcq').
      destruct (cohort_has_offset_zero df i' r' x c Hr' Hc' Hcq') as (j' & Hj' & Hkj').
      apply elem_of_group_of. by exists j'.
Qed.

Lemma cohort_counts_keys_NoDup (df : DataFrame) :
  NoDup (cohort_counts (CohortQuarterID_of df) (CohortIndex_of df)
                       (col Receiver_ID df)).*1.
Proof. unfold cohort_counts. rewrite groupby_agg_keys. apply group_keys_NoDup. Qed.

(** X3: every cell of the grouped counts holds at least one customer and
    at most as many as the offset-0 cell of the same cohort; and there is
    one count per (cohort, offset). *)
Theorem cohort_counts_bounded (df : DataFrame) (c : nat) (o : Z) (n : nat) :
  (c, o, n) ∈ cohort_counts (CohortQuarterID_of df) (CohortIndex_of df)
                            (col Receiver_ID df) →
  ((0 < n)%nat ∧
   ∃ n0, (c, 0, n0) ∈ cohort_counts (CohortQuarterID_of df) (CohortIndex_of df)
                                    (col Receiver_ID df) ∧
         (n ≤ n0)%nat) ∧
  (∀ n', (c, o, n') ∈ cohort_counts (CohortQuarterID_of df) (CohortIndex_of df)
                                    (col Receiver_ID df) → n' = n).
Proof.
  intros Hin. split.
  - exact (cohort_counts_le_offset_zero df c o n Hin).
  - intros n' Hin'.
    assert ((c, o, n') = (c, o, n)) as Heq; [|congruence].
    eapply (NoDup_fmap_eq fst); [apply cohort_counts_keys_NoDup|done|done|done].
Qed.

Lemma cohort_counts_bounded_witness :
  ((0 < 1)%nat ∧
   ∃ n0, (0%nat, 0, n0) ∈ cohort_counts (CohortQuarterID_of three_customers)
                             (CohortIndex_of three_customers)
                             (col Receiver_ID three_customers) ∧
         (1 ≤ n0)%nat) ∧
  (∀ n', (0%nat, 1, n') ∈ cohort_counts (CohortQuarterID_of three_customers)
                             (CohortIndex_of three_customers)
                             (col Receiver_ID three_customers) → n' = 1%nat).
Proof.
  apply (cohort_counts_bounded three_customers 0 1 1).
  vm_compute. right. left.
Defined.

(** ** Time-bucket aggregates *)

Lemma groupby_sum_present {K} `{!EqDecision K} (leb : K → K → bool)
    (keys : list (option K)) (vals : list (option Q)) :
  Forall is_Some keys → (length vals ≤ length keys)%nat →
  (total_of (groupby_agg leb sum_skipna keys vals) == sum_skipna vals)%Q.
Proof.
  intros Hall Hlen. rewrite groupby_sum_total. by rewrite with_key_all.
Qed.


(** ** Purchase frequencies *)

Section CountFacts.
Context {K : Type} `{!EqDecision K}.

Lemma sum_list_unchanged (ks : list K) (f g : K → nat) :
  (∀ k, k ∈ ks → g k = f k) → sum_list (map g ks) = sum_list (map f ks).
Proof.
  induction ks as [|k ks IH]; intros Hfg; simpl; [done|].
  rewrite IH, (Hfg k) by (intros; apply Hfg; by right) || left. done.
Qed.

Lemma sum_list_add_once (ks : list K) (k0 : K) (f g : K → nat) :
  NoDup ks → k0 ∈ ks → g k0 = S (f k0) → (∀ k, k ≠ k0 → g k = f k) →
  sum_list (map g ks) = S (sum_list (map f ks)).
Proof.
  intros Hnd Hin H0 Hne.
  induction Hnd as [|k ks Hk Hnd IH]; [by apply elem_of_nil in Hin|].
  simpl. apply elem_of_cons in Hin as [<-|Hin].
  - rewrite H0, (sum_list_unchanged ks f g); [done|].
    intros k Hin. apply Hne. by intros ->.
  - rewrite IH, Hne by (done || by intros ->). lia.
Qed.

Lemma group_of_rows {B} (f : B → option K) (k : K) (l : list B) :
  group_of k (map f l) l = filter (λ x, f x = Some k) l.
Proof.
  induction l as [|x l IH]; [done|]. simpl map.
  rewrite group_of_cons, filter_cons, IH. by destruct (decide (f x = Some k)).
Qed.

(** The group sizes add up to the number of records that have a key. *)
Lemma sizes_over_groups {B} (f : B → option K) (ks : list K) (l : list B) :
  NoDup ks → (∀ k, Some k ∈ map f l → k ∈ ks) →
  sum_list (map (λ k, length (group_of k (map f l) l)) ks)
  = length (filter (λ x, is_Some (f x)) l).
Proof.
  intros Hnd. induction l as [|x l IH]; intros Hks.
  - simpl. induction ks as [|k ks IHks]; [done|]. simpl.
    apply NoDup_cons in Hnd as [_ Hnd]. rewrite IHks; [done|done|].
    intros ? Hin. by apply elem_of_nil in Hin.
  - assert (∀ k, Some k ∈ map f l → k ∈ ks) as Hks'.
    { intros k Hin. apply Hks. simpl. by right. }
    specialize (IH Hks'). rewrite filter_cons. simpl map.
    destruct (f x) as [k0|] eqn:Hfx.
    + rewrite decide_True by eauto. simpl. rewrite <- IH.
      apply (sum_list_add_once ks k0).
      * done.
      * apply Hks. simpl. rewrite Hfx. left.
      * by rewrite group_of_cons, decide_True.
      * intros k Hne. rewrite group_of_cons, decide_False by congruence. done.
    + rewrite decide_False by (by intros [? ?]). rewrite <- IH.
      apply sum_list_unchanged. intros k _.
      by rewrite group_of_cons, decide_False.
Qed.
End CountFacts.

(** X5: the purchase-frequency table has one line per customer id, in
    increasing order of the id; the frequency of a customer is the number of
    that customer's records, at least 1; and the frequencies add up to the
    number of records that have a customer id. *)
Theorem purchase_frequency_counts (df : DataFrame) :
  let customer_freq := (analyze_customer_behavior df).2.1 in
  NoDup customer_freq.*1 ∧
  StronglySorted Z.le customer_freq.*1 ∧
  (∀ c, c ∈ customer_freq.*1 ↔ Some c ∈ col Receiver_ID df) ∧
  (∀ c n, (c, n) ∈ customer_freq →
     n = length (filter (λ r, Receiver_ID r = Some c) (rows df)) ∧ (0 < n)%nat) ∧
  sum_list customer_freq.*2
  = length (filter (λ r, is_Some (Receiver_ID r)) (rows df)).
Proof.
  intros customer_freq. subst customer_freq. simpl.
  split_and!.
  - rewrite groupby_agg_keys. apply group_keys_NoDup.
  - rewrite groupby_agg_keys.
    eapply (StronglySorted_weaken (λ a b, Z.leb a b = true)).
    + intros x y. apply Z.leb_le.
    + apply stable_sort_sorted.
      * intros x y Hxy. apply Z.leb_le. apply Z.leb_gt in Hxy. lia.
      * intros x y z Hxy Hyz. apply Z.leb_le. apply Z.leb_le in Hxy, Hyz. lia.
  - intros c. rewrite groupby_agg_keys. apply group_keys_elem.
  - intros c n [Hkey Hn]%groupby_agg_elem. simpl in Hkey, Hn.
    unfold col in Hn. rewrite group_of_rows in Hn. split; [done|].
    rewrite Hn. unfold col in Hkey.
    apply list_elem_of_fmap in Hkey as (r & Hr & Hin).
    assert (r ∈ filter (λ r, Receiver_ID r = Some c) (rows df)) as Hf.
    { by apply list_elem_of_filter. }
    destruct (filter _ (rows df)); [by apply elem_of_nil in Hf|simpl; lia].
  - unfold groupby_agg. rewrite <- list_fmap_compose.
    apply (sizes_over_groups Receiver_ID).
    + apply group_keys_NoDup.
    + intros k. apply group_keys_elem.
Qed.

(** ** Order of the analyses *)


Section MainFacts.
Variable parse_numeric : string → option Q.
Variable parse_datetime : string → option datetime.

End MainFacts.

(** ** Selection of the top and bottom rows *)

Section SelectionFacts.
Context {A : Type} (val : A → Q).

Lemma nlargest_selects (n : nat) (l : list A) :
  length (nlargest val n l) = (n `min` length l)%nat ∧
  ∃ rest, l ≡ₚ nlargest val n l ++ rest ∧
          ∀ x y, x ∈ nlargest val n l → y ∈ rest → (val y <= val x)%Q.
Proof.
  unfold nlargest.
  set (D := stable_sort (λ a b, Qle_bool (val b) (val a)) l).
  split.
  - rewrite length_take. unfold D. by rewrite stable_sort_length.
  - exists (drop n D). split.
    + rewrite take_drop. symmetry. apply stable_sort_Permutation.
    + intros x y Hx Hy. apply Qle_bool_iff.
      apply (StronglySorted_take_drop (λ a b, Qle_bool (val b) (val a) = true) D n);
        try done.
      apply stable_sort_sorted.
      * intros a b. apply Qle_bool_total.
      * intros a b c H1 H2. by eapply Qle_bool_trans.
Qed.

Lemma nsmallest_selects (n : nat) (l : list A) :
  length (nsmallest val n l) = (n `min` length l)%nat ∧
  ∃ rest, l ≡ₚ nsmallest val n l ++ rest ∧
          ∀ x y, x ∈ nsmallest val n l → y ∈ rest → (val x <= val y)%Q.
Proof.
  unfold nsmallest.
  set (U := stable_sort (λ a b, Qle_bool (val a) (val b)) l).
  split.
  - rewrite length_take. unfold U. by rewrite stable_sort_length.
  - exists (drop n U). split.
    + rewrite take_drop. symmetry. apply stable_sort_Permutation.
    + intros x y Hx Hy. apply Qle_bool_iff.
      apply (StronglySorted_take_drop (λ a b, Qle_bool (val a) (val b) = true) U n);
        try done.
      apply stable_sort_sorted.
      * intros a b. apply Qle_bool_total.
      * intros a b c. apply Qle_bool_trans.
Qed.
End SelectionFacts.

(** X8: the top-10 lists of the country and product analyses hold 10
    groups, or all groups when there are fewer; the groups left out are the
    rest of the grouped table, and none of them has a larger value than a
    group in the list. The bottom-10 lists likewise, with smaller. *)
Theorem top_bottom_select_extremes (df : DataFrame) :
  (length (top_countries df) = (10 `min` distinct_count (col Transmission_Zone df))%nat ∧
   ∃ rest, country_purchases df ≡ₚ top_countries df ++ rest ∧
           ∀ x y, x ∈ top_countries df → y ∈ rest → (y.2 <= x.2)%Q) ∧
  (length (bottom_countries df) = (10 `min` distinct_count (col Transmission_Zone df))%nat ∧
   ∃ rest, country_purchases df ≡ₚ bottom_countries df ++ rest ∧
           ∀ x y, x ∈ bottom_countries df → y ∈ rest → (x.2 <= y.2)%Q) ∧
  (length (top_products df) = (10 `min` distinct_count (col Sensor_Type df))%nat ∧
   ∃ rest, product_quantities df ≡ₚ top_products df ++ rest ∧
           ∀ x y, x ∈ top_products df → y ∈ rest → (y.2 <= x.2)%Q) ∧
  (length (bottom_products df) = (10 `min` distinct_count (col Sensor_Type df))%nat ∧
   ∃ rest, product_quantities df ≡ₚ bottom_products df ++ rest ∧
           ∀ x y, x ∈ bottom_products df → y ∈ rest → (x.2 <= y.2)%Q) ∧
  (length (top_customers df) = (10 `min` distinct_count (col Transmission_Zone df))%nat ∧
   ∃ rest, country_customers df ≡ₚ top_customers df ++ rest ∧
           ∀ x y, x ∈ top_customers df → y ∈ rest → (y.2 ≤ x.2)%nat) ∧
  (length (bottom_customers df) = (10 `min` distinct_count (col Transmission_Zone df))%nat ∧
   ∃ rest, country_customers df ≡ₚ bottom_customers df ++ rest ∧
           ∀ x y, x ∈ bottom_customers df → y ∈ rest → (x.2 ≤ y.2)%nat).
Proof.
  assert (∀ a b : nat, (inject_Z (Z.of_nat a) <= inject_Z (Z.of_nat b))%Q → (a ≤ b)%nat)
    as Hnat.
  { intros a b Hab. rewrite <- Zle_Qle in Hab. lia. }
  assert (length (country_purchases df) = distinct_count (col Transmission_Zone df))
    as Hc by apply grouped_length.
  assert (length (product_quantities df) = distinct_count (col Sensor_Type df))
    as Hp by apply grouped_length.
  assert (length (country_customers df) = distinct_count (col Transmission_Zone df))
    as Hu by apply grouped_length.
  split_and!.
  - rewrite <- Hc. apply (nlargest_selects snd).
  - apply (nlargest_selects snd).
  - rewrite <- Hc. apply (nsmallest_selects snd).
  - apply (nsmallest_selects snd).
  - rewrite <- Hp. apply (nlargest_selects snd).
  - apply (nlargest_selects snd).
  - rewrite <- Hp. apply (nsmallest_selects snd).
  - apply (nsmallest_selects snd).
  - rewrite <- Hu. apply (nlargest_selects count_val).
  - destruct (nlargest_selects count_val 10 (country_customers df))
      as (_ & rest & Hperm & Hle).
    exists rest. split; [done|]. intros x y Hx Hy. by apply Hnat, Hle.
  - rewrite <- Hu. apply (nsmallest_selects count_val).
  - destruct (nsmallest_selects count_val 10 (country_customers df))
      as (_ & rest & Hperm & Hle).
    exists rest. split; [done|]. intros x y Hx Hy. by apply Hnat, Hle.
Qed.

(** ** Labels chosen by the relabelling script *)

Lemma ece_products_NoDup : NoDup ece_products.
Proof. apply (bool_decide_unpack _). by vm_compute. Qed.

Lemma length_repeated (t : nat) :
  length (mjoin (replicate t ece_products)) = (t * 40)%nat.
Proof.
  induction t as [|t IH]; [done|].
  change (mjoin (replicate (S t) ece_products))
    with (ece_products ++ mjoin (replicate t ece_products)).
  rewrite length_app, IH. change (length ece_products) with 40%nat. lia.
Qed.

Lemma elem_of_repeated (t : nat) (x : string) :
  x ∈ mjoin (replicate t ece_products) → x ∈ ece_products.
Proof.
  induction t as [|t IH]; [by intros ?%elem_of_nil|].
  change (mjoin (replicate (S t) ece_products))
    with (ece_products ++ mjoin (replicate t ece_products)).
  rewrite elem_of_app. intros [?|?]; auto.
Qed.

Section LabelFacts.
Variable shuffle : list string → list string.
Variable sample : list string → nat → list string.

(** What the random generator guarantees: a shuffle is a permutation; a
    sample of size [k] of a duplicate-free list is [k] distinct elements
    of it. *)
Hypothesis shuffle_permutes : ∀ l, shuffle l ≡ₚ l.
Hypothesis sample_distinct : ∀ l k, NoDup l → (k ≤ length l)%nat →
  length (sample l k) = k ∧ NoDup (sample l k) ∧ sample l k ⊆ l.

Lemma product_mapping_zip (descriptions : list (option string)) :
  ∃ labels,
    product_mapping shuffle sample descriptions = zip (unique descriptions) labels ∧
    length labels = length (unique descriptions) ∧
    (∀ x, x ∈ labels → x ∈ ece_products) ∧
    ((length (unique descriptions) ≤ 40)%nat → NoDup labels).
Proof.
  unfold product_mapping. change (length ece_products) with 40%nat.
  set (n := length (unique descriptions)).
  destruct (decide (40 < n)%nat) as [Hbig|Hsmall].
  - set (t := ((n + 40 - 1) `div` 40)%nat).
    set (repeated := take n (mjoin (replicate t ece_products))).
    assert (length repeated = n) as Hlen.
    { unfold repeated. rewrite length_take, length_repeated.
      pose proof (Nat.div_mod_eq (n + 40 - 1) 40).
      pose proof (Nat.mod_upper_bound (n + 40 - 1) 40). fold t in H. lia. }
    exists (shuffle repeated). split_and!.
    + apply dict_of_NoDup. rewrite fst_zip; [apply unique_NoDup|].
      rewrite shuffle_permutes, Hlen. done.
    + by rewrite shuffle_permutes.
    + intros x. rewrite shuffle_permutes. intros Hx.
      apply (elem_of_repeated t). by eapply subseteq_take.
    + intros ?. lia.
  - destruct (sample_distinct ece_products n ece_products_NoDup) as (Hlen & Hnd & Hsub).
    { change (length ece_products) with 40%nat. lia. }
    exists (sample ece_products n). split_and!; try done.
    apply dict_of_NoDup. rewrite fst_zip; [apply unique_NoDup|]. by rewrite Hlen.
Qed.

(** X9: the relabelling script gives every line a label of the product
    list, also a line without description; lines with the same description
    get the same label; and with at most 40 distinct descriptions, lines
    with different descriptions get different labels. *)
Theorem relabel_assigns_product_names (csv : list raw_row) :
  let out := update_products shuffle sample csv in
  (∀ i x, csv !! i = Some x →
     ∃ y label, out !! i = Some y ∧ Description y = Some label ∧
                label ∈ ece_products) ∧
  (∀ i j x x' y y', csv !! i = Some x → csv !! j = Some x' →
     out !! i = Some y → out !! j = Some y' →
     (Description x = Description x' → Description y = Description y') ∧
     ((length (unique (Description <$> csv)) ≤ 40)%nat →
      Description y = Description y' → Description x = Description x')).
Proof.
  intros out. subst out. unfold update_products.
  destruct (product_mapping_zip (Description <$> csv))
    as (labels & -> & Hlen & Hece & Hnd).
  assert (∀ x, x ∈ csv →
            ∃ k label, unique (Description <$> csv) !! k = Some (Description x) ∧
                       labels !! k = Some label ∧
                       dict_get (zip (unique (Description <$> csv)) labels)
                                (Description x) = Some label) as Hget.
  { intros x Hx.
    assert (Description x ∈ unique (Description <$> csv)) as Hin.
    { apply unique_elem. by apply list_elem_of_fmap_2. }
    apply list_elem_of_lookup in Hin as [k Hk].
    destruct (lookup_lt_is_Some_2 labels k) as [label Hl].
    { rewrite Hlen. by eapply lookup_lt_Some. }
    exists k, label. split_and!; try done.
    apply dict_get_zip; [apply unique_NoDup|done|]. by exists k. }
  split.
  - intros i x Hi.
    destruct (Hget x) as (k & label & _ & Hl & Hd); [by eapply list_elem_of_lookup_2|].
    eexists _, label. rewrite list_lookup_fmap, Hi. simpl. split_and!; try done.
    apply Hece. by eapply list_elem_of_lookup_2.
  - intros i j x x' y y' Hi Hj Hy Hy'.
    rewrite list_lookup_fmap, Hi in Hy. rewrite list_lookup_fmap, Hj in Hy'.
    simpl in Hy, Hy'. injection Hy as <-. injection Hy' as <-. simpl.
    split; [by intros ->|].
    intros Hsmall Heq.
    destruct (Hget x) as (k & label & Hk & Hl & Hd); [by eapply list_elem_of_lookup_2|].
    destruct (Hget x') as (k' & label' & Hk' & Hl' & Hd'); [by eapply list_elem_of_lookup_2|].
    rewrite Hd, Hd' in Heq. injection Heq as <-.
    assert (k = k') as <- by (eapply NoDup_lookup; eauto).
    congruence.
Qed.
End LabelFacts.

Lemma relabel_assigns_product_names_witness :
  ∃ y label,
    update_products reverse (λ l k, take k l) example_csv !! 1%nat = Some y ∧
    Description y = Some label ∧ label ∈ ece_products.
Proof.
  assert (∀ l : list string, reverse l ≡ₚ l) as Hs by apply reverse_Permutation.
  assert (∀ (l : list string) (k : nat), NoDup l → (k ≤ length l)%nat →
            length (take k l) = k ∧ NoDup (take k l) ∧ take k l ⊆ l) as Hp.
  { intros l k Hnd Hk. split_and!.
    - rewrite length_take. lia.
    - exact (sublist_NoDup _ _ Hnd (sublist_take l k)).
    - apply subseteq_take. }
  destruct (relabel_assigns_product_names reverse (λ l k, take k l) Hs Hp example_csv)
    as [H _].
  exact (H 1%nat _ eq_refl).
Defined.

(** ** When the cohort engine has no table *)

Lemma omap_id_all_missing {A} (l : list (option A)) :
  (∀ x, Some x ∉ l) → omap id l = [].
Proof.
  induction l as [|[a|] l IH]; intros Hall; [done| |].
  - exfalso. apply (Hall a). left.
  - simpl. apply IH. intros x Hx. apply (Hall x). by right.
Qed.

(** X10: the cohort engine produces a retention table exactly when some
    record has a customer id; on a table without any customer id (the empty
    table among them) it ends in the error of [iloc]. A table it produces
    has at least one row. *)
Theorem retention_table_exists_iff (df : DataFrame) :
  ((analyze_cohort_retention df).2 = None ↔ ∀ r, r ∈ rows df → Receiver_ID r = None) ∧
  (∀ f, (analyze_cohort_retention df).2 = Some f → f_values f ≠ []).
Proof.
  change ((analyze_cohort_retention df).2)
    with (retention_of (quarters_map_of (quarter_column df)) (CohortQuarterID_of df)
                       (CohortIndex_of df) (col Receiver_ID df)).
  pose proof (retention_of_first_column (quarters_map_of (quarter_column df))
                (CohortQuarterID_of df) (CohortIndex_of df) (col Receiver_ID df)) as H.
  simpl in H. specialize (H (cohort_counts_offset_zero df)).
  assert ((∀ r, r ∈ rows df → Receiver_ID r = None) →
          cohort_counts (CohortQuarterID_of df) (CohortIndex_of df) (col Receiver_ID df)
          = []) as Hnone.
  { intros Hall. unfold cohort_counts, groupby_agg, group_keys.
    fold (cohort_keys df). rewrite omap_id_all_missing; [done|].
    intros [c o] Hin.
    destruct (cohort_key_origin df c o Hin) as (i & r & cust & Hr & Hc & _).
    rewrite Hall in Hc by (by eapply list_elem_of_lookup_2). done. }
  split.
  - split.
    + intros Hn. rewrite Hn in H. by apply cohort_counts_empty.
    + intros Hall. unfold retention_of. by rewrite (Hnone Hall).
  - intros f Hf Hempty. unfold retention_of in Hf.
    set (t := cohort_counts (CohortQuarterID_of df) (CohortIndex_of df)
                            (col Receiver_ID df)) in *.
    unfold iloc_first_column in Hf. cbn [f_columns] in Hf.
    destruct (f_columns (pivot_table t)) as [|c0 cols] eqn:Hcols; [done|].
    cbn [mbind option_bind] in Hf. injection Hf as <-. cbn [f_values] in Hempty.
    apply (f_equal length) in Hempty.
    unfold percent, divide_rows in Hempty.
    rewrite length_reverse, length_map, length_zip_with, length_map in Hempty.
    unfold pivot_table in Hempty. cbn [f_values] in Hempty.
    rewrite !length_map, !stable_sort_length in Hempty.
    simpl length in Hempty.
    assert (length (unique t.*1.*1) = 0%nat) as Hlen by lia.
    destruct t as [|e t']; [done|].
    assert (e.1.1 ∈ unique ((e :: t').*1.*1)) as He.
    { apply unique_elem. rewrite !fmap_cons. left. }
    destruct (unique ((e :: t').*1.*1)); [by apply elem_of_nil in He|done].
Qed.

(** ** Loader, record by record *)

Lemma omap_length_le {A B} (f : A → option B) (l : list A) :
  (length (omap f l) ≤ length l)%nat.
Proof.
  induction l as [|x l IH]; [done|]. simpl.
  change (list_omap A B f l) with (omap f l). destruct (f x); simpl; lia.
Qed.

Lemma omap_length_all {A B} (f : A → option B) (l : list A) :
  length (omap f l) = length l ↔ Forall (λ x, is_Some (f x)) l.
Proof.
  induction l as [|x l IH]; [split; [constructor|done]|].
  pose proof (omap_length_le f l) as Hle. rewrite Forall_cons, <- IH.
  simpl. change (list_omap A B f l) with (omap f l).
  destruct (f x) as [y|]; simpl.
  - split; [intros ?; split; [by eexists|lia]|intros [_ ?]; lia].
  - split; [lia|]. by intros [[? ?] _].
Qed.

Section LoaderShape.
Variable parse_numeric : string → option Q.
Variable parse_datetime : string → option datetime.

Local Abbreviation load := (load_and_preprocess_data parse_numeric parse_datetime).

(** X11: the loader works record by record: loading two files one after
    the other gives the rows of the first followed by the rows of the second;
    the loaded table never has more rows than the file has lines, and has as
    many exactly when every date parses. *)
Theorem loader_is_row_wise (csv1 csv2 : list raw_row) :
  rows (load (csv1 ++ csv2)) = rows (load csv1) ++ rows (load csv2) ∧
  (length (rows (load csv1)) ≤ length csv1)%nat ∧
  (length (rows (load csv1)) = length csv1 ↔
   Forall (λ x, is_Some (to_datetime parse_datetime (InvoiceDate_text x))) csv1).
Proof.
  split_and!.
  - apply load_app.
  - apply omap_length_le.
  - change (rows (load csv1)) with (omap (load_row parse_numeric parse_datetime) csv1).
    rewrite omap_length_all. apply Forall_iff. intros x. unfold load_row.
    destruct (to_datetime parse_datetime (InvoiceDate_text x)); split;
      intros [? ?]; by eauto.
Qed.
End LoaderShape.
